(** * picmo: the popup picker controller, picker options and variant popup

    A shallow embedding of the parts of the picmo emoji picker that its
    specification talks about:

    - [Options]: [getOptions] of [packages/picmo/src/options.ts], JavaScript
      objects being finite maps from property names to values;
    - [Variants]: the variant popup exercised by
      [views/__tests__/VariantPopup.test.ts];
    - [Popup]: the [PopupPickerController] class.

    The controller's [async] methods are cut at every [await] into segments.
    A state holds the controller's fields, what it sees of the platform (the
    document, the animations of the picker element, the positionings in
    effect, its listeners), the calls suspended at an [await], and the record
    of what was done so far. A run is a sequence of steps: a call made by the
    page, an event reaching a listener, an animation starting or finishing,
    a suspended call being resumed once the [finished] promises it awaits are
    resolved. [run] allows every order of resumption, and what holds in
    every run is stated over [run]. [runInOrder] resumes first come, first
    served; it serves to exhibit particular runs. [runInTurn] asks only that
    the last part of a [close()] waits its turn behind an [open()] called
    before it; [runOneAtATime] has every call awaited before the next is
    made.

    Outside the model: animations run to their end (nothing in the
    controller cancels or pauses one; a state may hold idle and paused
    animations, which no step produces); callbacks registered with [on] are
    called but do not call back into the controller; the page leaves the
    popup element alone. *)

From stdpp Require Import gmap strings list fin_maps.
From Stdlib Require Import ZArith Lia.

Open Scope string_scope.

(** ** Picker options ([options.ts]) *)

Module Options.

(** Objects the option values point to without looking inside them. *)
Inductive Ref :=
| NativeRendererInstance   (* new NativeRenderer() *)
| LightTheme               (* lightTheme, imported from ./themes *)
| LangEn                   (* en, imported from ./i18n/lang-en *)
| DocumentBody             (* document.body *)
| OtherObject (n : nat).

#[warnings="-register-all"]
Inductive JsValue :=
| JUndefined
| JBool (b : bool)
| JNum (n : Z)
| JStr (s : string)
| JArr (items : list JsValue)
| JRef (r : Ref).

(** A plain JavaScript object: own enumerable properties by name. *)
Abbreviation JsObject := (gmap string JsValue).

(** [{ ...src }] copied over an object literal under construction: every own
    property of [src] is written, also one whose value is [undefined]. *)
Definition spread (src acc : JsObject) : JsObject := src ∪ acc.

Definition defaultOptions : JsObject :=
  list_to_map
    [ ("renderer", JRef NativeRendererInstance);
      ("theme", JRef LightTheme);
      ("animate", JBool true);
      ("showSearch", JBool true);
      ("showCategoryTabs", JBool true);
      ("showVariants", JBool true);
      ("showRecents", JBool true);
      ("showPreview", JBool true);
      ("emojisPerRow", JNum 8);
      ("visibleRows", JNum 6);
      ("emojiVersion", JStr "auto");
      ("maxRecents", JNum 50);
      ("i18n", JRef LangEn);
      ("locale", JStr "en");
      ("custom", JArr []) ].

(** [getOptions(options = {})]: the argument defaults to the empty object;
    the result is [{ ...defaultOptions, rootElement: document.body, ...options }]. *)
Definition getOptions (options : option JsObject) : JsObject :=
  let options := default ∅ options in
  spread options (<["rootElement" := JRef DocumentBody]> (spread defaultOptions ∅)).

(** The documented defaults: those of [picker-options.md], with
    [document.body] for [rootElement], and the values the specification gives
    for [locale] and [custom], for which the documentation names none. *)
Definition documentedDefaults : list (string * JsValue) :=
  [ ("animate", JBool true);
    ("showSearch", JBool true);
    ("showCategoryTabs", JBool true);
    ("showVariants", JBool true);
    ("showRecents", JBool true);
    ("showPreview", JBool true);
    ("emojisPerRow", JNum 8);
    ("visibleRows", JNum 6);
    ("emojiVersion", JStr "auto");
    ("maxRecents", JNum 50);
    ("locale", JStr "en");
    ("custom", JArr []);
    ("rootElement", JRef DocumentBody) ].


(** The names of the properties [defaultOptions] is written with. *)
Definition defaultKeys : list string :=
  [ "renderer"; "theme"; "animate"; "showSearch"; "showCategoryTabs";
    "showVariants"; "showRecents"; "showPreview"; "emojisPerRow";
    "visibleRows"; "emojiVersion"; "maxRecents"; "i18n"; "locale"; "custom" ].

End Options.

(** ** The variant popup ([views/VariantPopup], known through its test) *)

Module Variants.

Record Variant := { v_label : string; v_emoji : string }.

(** [EmojiRecord] as the tests build it: [{ emoji, label, skins }]. *)
Record EmojiRecord := {
  emoji : string;
  label : string;
  skins : list Variant
}.

(** What the tests read off a rendered emoji button ([Emoji.test.ts]). *)
Record Button := {
  textContent : string;
  title : string;
  dataEmoji : string
}.

Definition emojiButton (e l : string) : Button :=
  {| textContent := e; title := l; dataEmoji := e |}.

(** Modelled from the spec: [VariantPopup.renderSync] is not among the
    sources. The popup shows the emoji and its variants (skin tones), one
    button each: the base emoji first, then the variants of [skins] in order. *)
Definition renderVariantPopup (e : EmojiRecord) : list Button :=
  emojiButton (emoji e) (label e)
    :: map (fun v => emojiButton (v_emoji v) (v_label v)) (skins e).

(** The popup as the keyboard sees it: its buttons and the focused one. *)
Record VariantPopup := {
  buttons : list Button;
  focusedIndex : nat
}.

(** Modelled from the spec: the step of the arrow-key cycle through [n]
    buttons, to the right and to the left of button [i]. *)
Definition focusNext (n i : nat) : nat := if (S i <? n)%nat then S i else 0.

Definition focusPrevious (n i : nat) : nat :=
  match i with
  | O => n - 1
  | S j => j
  end.

(** Modelled from the spec: [VariantPopup]'s keydown handler is not among
    the sources. The arrow keys cycle through the fixed list of buttons: the
    right arrow goes to the next button and from the last one back to the
    first, the left arrow the other way round; other keys leave the focus. *)
Definition handleKeydown (key : string) (p : VariantPopup) : VariantPopup :=
  let n := length (buttons p) in
  if String.eqb key "ArrowRight" then
    {| buttons := buttons p; focusedIndex := focusNext n (focusedIndex p) |}
  else if String.eqb key "ArrowLeft" then
    {| buttons := buttons p; focusedIndex := focusPrevious n (focusedIndex p) |}
  else p.

(** [buttons[i].focus()] *)
Definition focus (i : nat) (p : VariantPopup) : VariantPopup :=
  {| buttons := buttons p; focusedIndex := i |}.

Definition testView (e : EmojiRecord) : VariantPopup :=
  {| buttons := renderVariantPopup e; focusedIndex := 0 |}.

(** The record of [VariantPopup.test.ts]. *)
Definition thumbs : EmojiRecord :=
  {| emoji := "👍"; label := "thumbs";
     skins := [ {| v_label := "thumbs up1"; v_emoji := "👍🏼" |};
                {| v_label := "thumbs up2"; v_emoji := "👍🏿" |} ] |}.

End Variants.

(** ** The popup controller ([PopupPickerController]) *)

Module Popup.
Local Open Scope list_scope.

(** *** The document

    Elements are numbered; the document is the parent pointer of every
    element that has one. [popupEl] is in it exactly while it is attached. *)

Abbreviation Dom := (gmap nat nat).

(** [self.contains(other)]: [other] is [self] or has it among its ancestors. *)
Fixpoint containsFrom (fuel : nat) (dom : Dom) (self other : nat) : bool :=
  if Nat.eqb other self then true
  else match fuel with
       | O => false
       | S fuel' =>
           match dom !! other with
           | Some parent => containsFrom fuel' dom self parent
           | None => false
           end
       end.

(** A chain of parents never needs more steps than the document has
    parent pointers. *)
Definition contains (dom : Dom) (self other : nat) : bool :=
  containsFrom (size dom) dom self other.

(** The relation [contains] decides. *)
Inductive InclusiveDescendant (dom : Dom) (ancestor : nat) : nat → Prop :=
| descendant_self : InclusiveDescendant dom ancestor ancestor
| descendant_child node parent :
    dom !! node = Some parent →
    InclusiveDescendant dom ancestor parent →
    InclusiveDescendant dom ancestor node.

(** [event.target] may be null; [pickerClick] is what
    [picker.isPickerClick(event)] answers for this event (the picker's own
    code decides it). *)
Record MouseEvent := { target : option nat; pickerClick : bool }.
Record KeyboardEvent := { key : string }.

(** *** Animations of the picker element *)

Inductive PlayState := Idle | Running | Paused | Finished.

Record Animation := { animationName : string; playState : PlayState }.

Definition isRunning (a : Animation) : bool :=
  match playState a with Running => true | _ => false end.

Definition isFinished (a : Animation) : bool :=
  match playState a with Finished => true | _ => false end.

Definition finish (a : Animation) : Animation :=
  {| animationName := animationName a; playState := Finished |}.

(** *** What the controller does to the world, in order *)

Inductive Method := MOpen | MClose | MToggle | MDestroy | MOn.

Inductive Outcome := Resolved | Rejected.

Inductive PickerMethod :=
| InitializePickerView
| SetInitialFocus
| Reset
| Destroy
| On (event : string) (callback : nat).

Inductive Effect :=
| Enter (m : Method)                       (* the method was called *)
| Settled (m : Method) (o : Outcome)       (* its promise was settled *)
| AppendChild (parent child : nat)
| RemoveChild (child : nat)
| PositionInstall (cleanup : nat)          (* positioning.setPosition(...) *)
| PositionCleanupCall (cleanup : nat)      (* the function it returned *)
| PickerCall (m : PickerMethod)
| Animate (animation : nat) (openState : bool)
| Emit (event : string)
| Callback (callback : nat) (event : string)
| DocumentListenerRemoved
| ExternalEventsCleared.

(** *** Suspended asynchronous calls

    An [async] method runs until its next [await]; what is left of it waits
    for the awaited promise. [Continuation] is who waits for [close()]'s own
    promise inside the controller: [destroy()] does, nobody else. *)

Inductive Continuation := Detached | ThenDestroy.

Inductive Stage :=
| OpenInitiated                       (* open: await initiateOpenStateChange(true) *)
| OpenAnimating                       (* open: await animateOpenStateChange(true) *)
| CloseInitiated (k : Continuation)   (* close: await initiateOpenStateChange(false) *)
| CloseAnimating (k : Continuation)   (* close: await animateOpenStateChange(false) *)
| DestroyClosing (o : Outcome).       (* destroy: await this.close(), settled with o *)

(** [awaited]: the animations whose [finished] promises the call waits for. *)
Record Task := { tid : nat; stage : Stage; awaited : list nat }.

(** *** The controller *)

(** The constructor's options, as far as the controller reads them. *)
Record PopupOptions := {
  opt_rootElement : option nat;
  opt_autoHide : option bool;
  opt_triggerElement : option nat
}.

(** Fields assigned once by the constructor, and whether the picker element
    has [animate] at all ([this.picker.el.animate?.(...)]). *)
Record Fields := {
  autoHide : bool;
  rootElement : nat;
  popupEl : nat;
  triggerElement : option nat;
  animateSupported : bool
}.

Record State := {
  isOpen : bool;
  positionCleanup : option nat;            (* undefined until setPosition ran *)
  externalEvents : list (string * nat);    (* ExternalEvents: (event, callback) *)
  dom : Dom;
  positioned : gset nat;                   (* positionings installed and not cleaned up *)
  nextPosition : nat;
  animations : list Animation;             (* picker.el.getAnimations(), by creation *)
  documentClick : bool;                    (* onDocumentClick listens on document *)
  pending : list Task;                     (* suspended calls, oldest wait first *)
  nextTask : nat;
  trace : list Effect
}.

Definition set_isOpen (v : bool) (s : State) : State :=
  {| isOpen := v; positionCleanup := positionCleanup s;
     externalEvents := externalEvents s; dom := dom s;
     positioned := positioned s; nextPosition := nextPosition s;
     animations := animations s; documentClick := documentClick s;
     pending := pending s; nextTask := nextTask s; trace := trace s |}.

Definition set_positionCleanup (v : option nat) (s : State) : State :=
  {| isOpen := isOpen s; positionCleanup := v;
     externalEvents := externalEvents s; dom := dom s;
     positioned := positioned s; nextPosition := nextPosition s;
     animations := animations s; documentClick := documentClick s;
     pending := pending s; nextTask := nextTask s; trace := trace s |}.

Definition set_externalEvents (v : list (string * nat)) (s : State) : State :=
  {| isOpen := isOpen s; positionCleanup := positionCleanup s;
     externalEvents := v; dom := dom s;
     positioned := positioned s; nextPosition := nextPosition s;
     animations := animations s; documentClick := documentClick s;
     pending := pending s; nextTask := nextTask s; trace := trace s |}.

Definition set_dom (v : Dom) (s : State) : State :=
  {| isOpen := isOpen s; positionCleanup := positionCleanup s;
     externalEvents := externalEvents s; dom := v;
     positioned := positioned s; nextPosition := nextPosition s;
     animations := animations s; documentClick := documentClick s;
     pending := pending s; nextTask := nextTask s; trace := trace s |}.

Definition set_positioned (v : gset nat) (n : nat) (s : State) : State :=
  {| isOpen := isOpen s; positionCleanup := positionCleanup s;
     externalEvents := externalEvents s; dom := dom s;
     positioned := v; nextPosition := n;
     animations := animations s; documentClick := documentClick s;
     pending := pending s; nextTask := nextTask s; trace := trace s |}.

Definition set_animations (v : list Animation) (s : State) : State :=
  {| isOpen := isOpen s; positionCleanup := positionCleanup s;
     externalEvents := externalEvents s; dom := dom s;
     positioned := positioned s; nextPosition := nextPosition s;
     animations := v; documentClick := documentClick s;
     pending := pending s; nextTask := nextTask s; trace := trace s |}.

Definition set_documentClick (v : bool) (s : State) : State :=
  {| isOpen := isOpen s; positionCleanup := positionCleanup s;
     externalEvents := externalEvents s; dom := dom s;
     positioned := positioned s; nextPosition := nextPosition s;
     animations := animations s; documentClick := v;
     pending := pending s; nextTask := nextTask s; trace := trace s |}.

Definition set_pending (v : list Task) (n : nat) (s : State) : State :=
  {| isOpen := isOpen s; positionCleanup := positionCleanup s;
     externalEvents := externalEvents s; dom := dom s;
     positioned := positioned s; nextPosition := nextPosition s;
     animations := animations s; documentClick := documentClick s;
     pending := v; nextTask := n; trace := trace s |}.

Definition set_trace (v : list Effect) (s : State) : State :=
  {| isOpen := isOpen s; positionCleanup := positionCleanup s;
     externalEvents := externalEvents s; dom := dom s;
     positioned := positioned s; nextPosition := nextPosition s;
     animations := animations s; documentClick := documentClick s;
     pending := pending s; nextTask := nextTask s; trace := v |}.

Definition effect (e : Effect) (s : State) : State :=
  set_trace (trace s ++ [e]) s.

(** The effects that happened between [s] and a later [s']. *)
Definition effectsSince (s s' : State) : list Effect :=
  drop (length (trace s)) (trace s').

(** The external events emitted so far. *)
Definition emitted (s : State) : list string :=
  omap (fun e => match e with Emit ev => Some ev | _ => None end) (trace s).

(** [new PopupPickerController(options)]: [document.createElement('div')]
    gave [created]; [options.rootElement || document.body];
    [options.autoHide ?? true]. *)
Definition construct (options : PopupOptions) (body created : nat)
    (animate : bool) : Fields :=
  {| autoHide := default true (opt_autoHide options);
     rootElement := default body (opt_rootElement options);
     popupEl := created;
     triggerElement := opt_triggerElement options;
     animateSupported := animate |}.

(** The state the constructor leaves: closed, no positioning yet, the click
    listener on the document registered. *)
Definition initial (document : Dom) : State :=
  {| isOpen := false; positionCleanup := None; externalEvents := [];
     dom := document; positioned := ∅; nextPosition := 0;
     animations := []; documentClick := true;
     pending := []; nextTask := 0; trace := [] |}.

Section Controller.

Variable c : Fields.

(** **** The platform and the collaborators *)

Definition appendChild (parent child : nat) (s : State) : State :=
  effect (AppendChild parent child) (set_dom (<[child := parent]> (dom s)) s).

(** [child.remove()] *)
Definition removeElement (child : nat) (s : State) : State :=
  effect (RemoveChild child) (set_dom (delete child (dom s)) s).

(** Modelled from the spec: [setPosition] of [./positioning] is not among
    the sources. It installs a positioning of the popup and returns the
    function that cleans it up; each call gives a new one. *)
Definition installPosition (s : State) : State * nat :=
  let f := nextPosition s in
  (effect (PositionInstall f) (set_positioned ({[f]} ∪ positioned s) (S f) s), f).

(** Calling a [PositionCleanup] function. *)
Definition callCleanup (f : nat) (s : State) : State :=
  effect (PositionCleanupCall f)
    (set_positioned (positioned s ∖ {[f]}) (nextPosition s) s).

(** A method of the picker ([EmojiPicker], not among the sources) being
    called: recorded, the picker's inside is not modelled. *)
Definition pickerCall (m : PickerMethod) (s : State) : State :=
  effect (PickerCall m) s.

(** Modelled from the spec: the class [ExternalEvents] is not among the
    sources. It keeps the callbacks registered per event; [emit] calls those
    of the event, [removeAll] forgets all of them. *)
Definition callbacksFor (event : string) (s : State) : list nat :=
  map snd (filter (fun p => p.1 = event) (externalEvents s)).

(** Modelled from the spec: [ExternalEvents.emit], calling the callbacks of
    the event in the order they were registered. *)
Definition emit (event : string) (s : State) : State :=
  foldl (fun s cb => effect (Callback cb event) s)
        (effect (Emit event) s) (callbacksFor event s).

(** Modelled from the spec: [ExternalEvents.removeAll]. *)
Definition removeAll (s : State) : State :=
  effect ExternalEventsCleared (set_externalEvents [] s).

Definition runningAt (s : State) (i : nat) : bool :=
  match animations s !! i with
  | Some a => isRunning a
  | None => false
  end.

Definition finishedAt (s : State) (i : nat) : bool :=
  match animations s !! i with
  | Some a => isFinished a
  | None => false
  end.

(** **** Suspending and settling *)

Definition suspend (st : Stage) (w : list nat) (s : State) : State :=
  set_pending (pending s ++ [{| tid := nextTask s; stage := st; awaited := w |}])
              (S (nextTask s)) s.

Definition resuspend (t : nat) (st : Stage) (w : list nat) (s : State) : State :=
  set_pending (pending s ++ [{| tid := t; stage := st; awaited := w |}])
              (nextTask s) s.

(** All awaited [finished] promises are resolved. *)
Definition ready (s : State) (task : Task) : bool :=
  forallb (finishedAt s) (awaited task).

(** **** The private methods *)

(** [this.picker.el.getAnimations().filter(a => a.playState === 'running')],
    each animation named by its index. *)
Definition getRunningAnimations (s : State) : list nat :=
  filter (fun i => runningAt s i = true) (seq 0 (length (animations s))).

(** [Promise.all(this.getRunningAnimations().map(a => a.finished))]: the
    promises to wait for. *)
Definition awaitPendingAnimations (s : State) : list nat :=
  getRunningAnimations s.

(** [this.positionCleanup?.(); this.positionCleanup = setPosition(...)] *)
Definition setPosition (s : State) : State :=
  let s := match positionCleanup s with
           | Some f => callCleanup f s
           | None => s
           end in
  let '(s, f) := installPosition s in
  set_positionCleanup (Some f) s.

(** [this.picker.el.animate?.(...).finished]: the new animation plays at
    once (how long it takes is up to the environment); without [animate]
    there is nothing to wait for. *)
Definition animateOpenStateChange (openState : bool) (s : State)
    : State * list nat :=
  if animateSupported c then
    let a := length (animations s) in
    let anim := {| animationName := if openState then "show-picker" else "hide-picker";
                   playState := Running |} in
    (effect (Animate a openState) (set_animations (animations s ++ [anim]) s), [a])
  else (s, []).

(** [this.isOpen = openState; await this.awaitPendingAnimations()] *)
Definition initiateOpenStateChange (openState : bool) (s : State)
    : State * list nat :=
  let s := set_isOpen openState s in
  (s, awaitPendingAnimations s).

(** **** open *)

Definition open (s : State) : State :=
  let s := effect (Enter MOpen) s in
  if isOpen s then effect (Settled MOpen Resolved) s
  else
    let '(s, w) := initiateOpenStateChange true s in
    suspend OpenInitiated w s.

Definition open_afterInitiate (t : nat) (s : State) : State :=
  let s := appendChild (rootElement c) (popupEl c) s in
  let s := setPosition s in
  let s := pickerCall InitializePickerView s in
  let '(s, w) := animateOpenStateChange true s in
  resuspend t OpenAnimating w s.

Definition open_afterAnimate (s : State) : State :=
  let s := pickerCall InitializePickerView s in
  let s := pickerCall SetInitialFocus s in
  let s := emit "picker:open" s in
  effect (Settled MOpen Resolved) s.

(** **** close *)

Definition close (k : Continuation) (s : State) : State :=
  let s := effect (Enter MClose) s in
  if negb (isOpen s) then
    let s := effect (Settled MClose Resolved) s in
    match k with
    | Detached => s
    | ThenDestroy => suspend (DestroyClosing Resolved) [] s
    end
  else
    let '(s, w) := initiateOpenStateChange false s in
    suspend (CloseInitiated k) w s.

Definition close_afterInitiate (t : nat) (k : Continuation) (s : State) : State :=
  let '(s, w) := animateOpenStateChange false s in
  resuspend t (CloseAnimating k) w s.

(** [close()]'s promise is settled; a [destroy()] that awaits it goes on from
    there, under the number the [close()] it called had. *)
Definition settleClose (t : nat) (k : Continuation) (o : Outcome) (s : State)
    : State :=
  let s := effect (Settled MClose o) s in
  match k with
  | Detached => s
  | ThenDestroy => resuspend t (DestroyClosing o) [] s
  end.

(** [this.popupEl.remove(); this.picker.reset(); this.positionCleanup()]:
    the last call is not guarded, it throws when the field is undefined. *)
Definition close_afterAnimate (t : nat) (k : Continuation) (s : State) : State :=
  let s := removeElement (popupEl c) s in
  let s := pickerCall Reset s in
  match positionCleanup s with
  | Some f => settleClose t k Resolved (callCleanup f s)
  | None => settleClose t k Rejected s
  end.

(** **** destroy *)

Definition destroy_rest (s : State) : State :=
  let s := effect DocumentListenerRemoved (set_documentClick false s) in
  let s := pickerCall Destroy s in
  let s := removeAll s in
  effect (Settled MDestroy Resolved) s.

Definition destroy (s : State) : State :=
  let s := effect (Enter MDestroy) s in
  if isOpen s then close ThenDestroy s
  else destroy_rest s.

Definition destroy_afterClose (o : Outcome) (s : State) : State :=
  match o with
  | Resolved => destroy_rest s
  | Rejected => effect (Settled MDestroy Rejected) s
  end.

(** **** toggle, on *)

Definition toggle (s : State) : State :=
  let s := effect (Enter MToggle) s in
  if isOpen s then close Detached s else open s.

Definition on (event : string) (callback : nat) (s : State) : State :=
  let s := effect (Enter MOn) s in
  let s := set_externalEvents (externalEvents s ++ [(event, callback)]) s in
  pickerCall (On event callback) s.

(** **** The listeners *)

Definition handleKeydown (event : KeyboardEvent) (s : State) : State :=
  if String.eqb (key event) "Escape" then close Detached s else s.

(** [this.options.triggerElement?.contains(clickedNode)], as a condition:
    [undefined] (no trigger element) counts as false, and so does a null
    target. *)
Definition isClickOnTrigger (event : MouseEvent) (s : State) : bool :=
  match triggerElement c with
  | Some trigger =>
      match target event with
      | Some clickedNode => contains (dom s) trigger clickedNode
      | None => false
      end
  | None => false
  end.

Definition onDocumentClick (event : MouseEvent) (s : State) : State :=
  if isOpen s && negb (pickerClick event) && negb (isClickOnTrigger event s)
  then close Detached s
  else s.

(** The constructor's [picker.on('emoji:select', () => this.close())]. *)
Definition onEmojiSelect (s : State) : State :=
  if autoHide c then close Detached s else s.

(** **** Running the controller

    What can happen next: a call from the page, an event reaching a listener,
    an animation of the picker element starting or finishing, a suspended
    call being resumed once what it awaits is there. *)

Inductive Label :=
| CallOpen
| CallClose
| CallToggle
| CallDestroy
| CallOn (event : string) (callback : nat)
| DocumentClick (event : MouseEvent)
| PopupKeydown (event : KeyboardEvent)
| EmojiSelect
| AnimationStarted (name : string)
| AnimationFinished (a : nat)
| Resume (t : nat).

Definition findTask (t : nat) (s : State) : option Task :=
  List.find (fun task => Nat.eqb (tid task) t) (pending s).

Definition dropTask (t : nat) (s : State) : State :=
  set_pending (List.filter (fun task => negb (Nat.eqb (tid task) t)) (pending s))
              (nextTask s) s.

Definition resume (task : Task) (s : State) : State :=
  match stage task with
  | OpenInitiated => open_afterInitiate (tid task) s
  | OpenAnimating => open_afterAnimate s
  | CloseInitiated k => close_afterInitiate (tid task) k s
  | CloseAnimating k => close_afterAnimate (tid task) k s
  | DestroyClosing o => destroy_afterClose o s
  end.

Definition exec (l : Label) (s : State) : option State :=
  match l with
  | CallOpen => Some (open s)
  | CallClose => Some (close Detached s)
  | CallToggle => Some (toggle s)
  | CallDestroy => Some (destroy s)
  | CallOn event callback => Some (on event callback s)
  | DocumentClick event =>
      Some (if documentClick s then onDocumentClick event s else s)
  | PopupKeydown event => Some (handleKeydown event s)
  | EmojiSelect => Some (onEmojiSelect s)
  | AnimationStarted name =>
      Some (set_animations
              (animations s ++ [{| animationName := name; playState := Running |}]) s)
  | AnimationFinished a =>
      match animations s !! a with
      | Some anim =>
          if isRunning anim
          then Some (set_animations (<[a := finish anim]> (animations s)) s)
          else None
      | None => None
      end
  | Resume t =>
      match findTask t s with
      | Some task =>
          if ready s task then Some (resume task (dropTask t s)) else None
      | None => None
      end
  end.

Fixpoint run (ls : list Label) (s : State) : option State :=
  match ls with
  | [] => Some s
  | l :: ls' =>
      match exec l s with
      | Some s' => run ls' s'
      | None => None
      end
  end.

(** First come, first served: the suspended call resumed is the one that
    has waited longest among those that can go on, and events of the page
    and of animations only come once no suspended call can go on. Calls may
    come at any time (several calls made in a row by one piece of code).

    This is one discipline among those the platform can follow, not its
    order of resumption in general: two animations may finish in the same
    frame, before any call is resumed, and promise reactions may resume a
    call past its second [await] before one that could go on earlier at its
    first. So [runInOrder] is used to exhibit particular runs, each to be
    traced in the source, and never to state what holds in every run. *)
Definition firstReady (s : State) : option nat :=
  tid <$> List.find (ready s) (pending s).

Definition inOrder (l : Label) (s : State) : bool :=
  match l with
  | Resume t =>
      match firstReady s with
      | Some t' => Nat.eqb t t'
      | None => false
      end
  | DocumentClick _ | PopupKeydown _ | EmojiSelect
  | AnimationStarted _ | AnimationFinished _ =>
      match firstReady s with
      | Some _ => false
      | None => true
      end
  | _ => true
  end.

Fixpoint runInOrder (ls : list Label) (s : State) : option State :=
  match ls with
  | [] => Some s
  | l :: ls' =>
      if inOrder l s then
        match exec l s with
        | Some s' => runInOrder ls' s'
        | None => None
        end
      else None
  end.

(** A run in which nothing but the environment and the scheduler acts: no
    call of the page, no event reaching a listener. *)
Definition quiet (l : Label) : bool :=
  match l with
  | AnimationStarted _ | AnimationFinished _ | Resume _ => true
  | _ => false
  end.

End Controller.

(** States the controller can be in after its constructor, whatever the
    document was. *)
Definition reachable (c : Fields) (s : State) : Prop :=
  ∃ document ls, run c ls (initial document) = Some s.

(** Nothing but the record of calls differs between [s] and [s']: the
    controller's fields, the document, the positionings, the animations, the
    listeners, the suspended calls and the events emitted are the same. *)
Definition unchanged (s s' : State) : Prop :=
  isOpen s' = isOpen s ∧
  positionCleanup s' = positionCleanup s ∧
  externalEvents s' = externalEvents s ∧
  dom s' = dom s ∧
  positioned s' = positioned s ∧
  nextPosition s' = nextPosition s ∧
  animations s' = animations s ∧
  documentClick s' = documentClick s ∧
  pending s' = pending s ∧
  nextTask s' = nextTask s ∧
  emitted s' = emitted s.

(** The click landed on the trigger element or inside it. *)
Definition clickedOnTrigger (c : Fields) (event : MouseEvent) (s : State) : Prop :=
  ∃ trigger node,
    triggerElement c = Some trigger ∧ target event = Some node ∧
    InclusiveDescendant (dom s) trigger node.

(** The positioning the controller would clean up next, as a set. *)
Definition currentCleanup (s : State) : gset nat :=
  match positionCleanup s with
  | Some f => {[f]}
  | None => ∅
  end.

(** Only the positioning whose cleanup the controller holds can be in
    effect, and none is while the popup element is out of the document. *)
Definition positionedInv (c : Fields) (s : State) : Prop :=
  positioned s ⊆ currentCleanup s ∧
  (dom s !! popupEl c = None → positioned s = ∅).

(** Suspended calls carry numbers already given out. *)
Definition tasksInv (s : State) : Prop :=
  ∀ task, In task (pending s) → tid task < nextTask s.

Definition isInitiated (st : Stage) : bool :=
  match st with
  | OpenInitiated | CloseInitiated _ => true
  | _ => false
  end.

(** [open()] or [close()] initiating a change of the open state towards
    [openState], the stage it is suspended in right afterwards, and the
    animation it will start. *)
Definition initiate (openState : bool) (s : State) : State :=
  if openState then open s else close Detached s.

Definition initiatedStage (openState : bool) : Stage :=
  if openState then OpenInitiated else CloseInitiated Detached.

Definition showHide (openState : bool) : Animation :=
  {| animationName := if openState then "show-picker" else "hide-picker";
     playState := Running |}.

(** The step from [s] to [s'] started a show or hide animation. *)
Definition startsAnimation (s s' : State) : Prop :=
  ∃ a openState, In (Animate a openState) (effectsSince s s').

(** The second half of C2 as the specification words it: whenever a show or
    hide animation is started, no animation of the picker element started
    before is still running. Runs are taken first come, first served. *)
Definition animationsNeverOverlap (c : Fields) : Prop :=
  ∀ document ls l s s',
    runInOrder c ls (initial document) = Some s →
    inOrder l s = true → exec c l s = Some s' →
    startsAnimation s s' →
    ∀ a, runningAt s a = false.

(** A page with a body (1) holding a trigger button (5, with an icon 6
    inside) and some other element (7); the popup element will be 2. *)
Definition demoDocument : Dom := {[ 5 := 1; 6 := 5; 7 := 1 ]}.

Definition demo : Fields :=
  construct {| opt_rootElement := None; opt_autoHide := None;
               opt_triggerElement := Some 5 |} 1 2 true.

(** The state a run leads to, the initial one if the run is not possible. *)
Definition after (c : Fields) (ls : list Label) (s : State) : State :=
  default s (run c ls s).

(** [open()] carried through: called, resumed, its animation finished,
    resumed again. *)
Definition demoOpened : State :=
  after demo [CallOpen; Resume 0; AnimationFinished 0; Resume 0]
        (initial demoDocument).

(** What is known, during a run after [open()] or [close()] initiated a
    change as call number [t], about a call of that number still suspended at
    its first [await]: it is that call, waiting for the animations [w]. *)
Definition initiatedInv (t : nat) (openState : bool) (w : list nat)
    (s : State) : Prop :=
  t < nextTask s ∧
  ∀ task, In task (pending s) → tid task = t →
          isInitiated (stage task) = true →
          task = {| tid := t; stage := initiatedStage openState; awaited := w |}.

(** [open()] up to the point where its show animation runs. *)
Definition demoOpening : State :=
  after demo [CallOpen; Resume 0] (initial demoDocument).

(** Toggled rapidly: [open()], and while its show animation runs [close()]
    and [open()] again; the show animation finishes, the first [open()] is
    completed and [close()] goes on to start its hide animation. The third
    call is the next to be resumed. *)
Definition rapidToggle : list Label :=
  [CallOpen; Resume 0; CallClose; CallOpen; AnimationFinished 0;
   Resume 0; Resume 1].

Definition demoToggled : State :=
  after demo rapidToggle (initial demoDocument).

(** *** A call carried through on its own

    The effects of the parts of [open()], [close()] and [destroy()], for a
    call made in state [s0]; [anim] is what starting the animation recorded
    (nothing when the picker element has no [animate]). *)

Definition cleanupPart (s0 : State) : list Effect :=
  match positionCleanup s0 with
  | Some f => [PositionCleanupCall f]
  | None => []
  end.

Definition animPart (openState : bool) (anim : list Effect) : Prop :=
  anim = [] ∨ ∃ a, anim = [Animate a openState].

Definition openEffects2 (c : Fields) (s0 : State) (anim : list Effect)
    : list Effect :=
  AppendChild (rootElement c) (popupEl c) :: cleanupPart s0 ++
  [PositionInstall (nextPosition s0); PickerCall InitializePickerView] ++ anim.

Definition openEffects3 (s0 : State) : list Effect :=
  [PickerCall InitializePickerView; PickerCall SetInitialFocus;
   Emit "picker:open"] ++
  map (fun cb => Callback cb "picker:open") (callbacksFor "picker:open" s0) ++
  [Settled MOpen Resolved].

Definition closeOutcome (s0 : State) : Outcome :=
  match positionCleanup s0 with
  | Some _ => Resolved
  | None => Rejected
  end.

Definition closeEffects3 (c : Fields) (s0 : State) : list Effect :=
  RemoveChild (popupEl c) :: PickerCall Reset ::
  match positionCleanup s0 with
  | Some f => [PositionCleanupCall f; Settled MClose Resolved]
  | None => [Settled MClose Rejected]
  end.

Definition destroyEffects : list Effect :=
  [DocumentListenerRemoved; PickerCall Destroy; ExternalEventsCleared;
   Settled MDestroy Resolved].

(** Where a run can be in which, after [open()] was called in the settled,
    closed state [s0], only the environment and the scheduler act. *)
Inductive OpenProgress (c : Fields) (s0 : State) : State → Prop :=
| OpenAtInitiate s task :
    pending s = [task] → stage task = OpenInitiated →
    isOpen s = true →
    positionCleanup s = positionCleanup s0 →
    nextPosition s = nextPosition s0 →
    externalEvents s = externalEvents s0 →
    trace s = trace s0 ++ [Enter MOpen] →
    OpenProgress c s0 s
| OpenAtAnimate s task anim :
    pending s = [task] → stage task = OpenAnimating →
    isOpen s = true →
    dom s !! popupEl c = Some (rootElement c) →
    externalEvents s = externalEvents s0 →
    animPart true anim →
    trace s = trace s0 ++ Enter MOpen :: openEffects2 c s0 anim →
    OpenProgress c s0 s
| OpenDone s anim :
    pending s = [] →
    isOpen s = true →
    dom s !! popupEl c = Some (rootElement c) →
    animPart true anim →
    trace s = trace s0 ++ Enter MOpen :: openEffects2 c s0 anim ++ openEffects3 s0 →
    OpenProgress c s0 s.

(** The same for [close()] called in the settled, open state [s0], by the
    page ([k] is [Detached], [pre] is empty) or by [destroy()] ([k] is
    [ThenDestroy], [pre] is [destroy()]'s entry). *)
Inductive CloseProgress (c : Fields) (k : Continuation) (s0 : State)
    (pre : list Effect) : State → Prop :=
| CloseAtInitiate s task :
    pending s = [task] → stage task = CloseInitiated k →
    isOpen s = false →
    positionCleanup s = positionCleanup s0 →
    externalEvents s = externalEvents s0 →
    trace s = trace s0 ++ pre ++ [Enter MClose] →
    CloseProgress c k s0 pre s
| CloseAtAnimate s task anim :
    pending s = [task] → stage task = CloseAnimating k →
    isOpen s = false →
    positionCleanup s = positionCleanup s0 →
    externalEvents s = externalEvents s0 →
    animPart false anim →
    trace s = trace s0 ++ pre ++ Enter MClose :: anim →
    CloseProgress c k s0 pre s
| CloseDone s anim :
    k = Detached →
    pending s = [] →
    isOpen s = false →
    dom s !! popupEl c = None →
    animPart false anim →
    trace s = trace s0 ++ pre ++ Enter MClose :: anim ++ closeEffects3 c s0 →
    CloseProgress c k s0 pre s
| DestroyAtClose s task anim :
    k = ThenDestroy →
    pending s = [task] → stage task = DestroyClosing (closeOutcome s0) →
    isOpen s = false →
    dom s !! popupEl c = None →
    animPart false anim →
    trace s = trace s0 ++ pre ++ Enter MClose :: anim ++ closeEffects3 c s0 →
    CloseProgress c k s0 pre s
| DestroyDone s anim :
    k = ThenDestroy →
    pending s = [] →
    isOpen s = false →
    dom s !! popupEl c = None →
    animPart false anim →
    (closeOutcome s0 = Resolved →
     documentClick s = false ∧ externalEvents s = [] ∧
     trace s = trace s0 ++ pre ++ Enter MClose :: anim ++ closeEffects3 c s0
                 ++ destroyEffects) →
    (closeOutcome s0 = Rejected →
     trace s = trace s0 ++ pre ++ Enter MClose :: anim ++ closeEffects3 c s0
                 ++ [Settled MDestroy Rejected]) →
    CloseProgress c k s0 pre s.

(** [destroy()] on a closed picker runs through at once. *)
Definition DestroyedAtOnce (s0 s : State) : Prop :=
  pending s = [] ∧
  isOpen s = false ∧
  documentClick s = false ∧ externalEvents s = [] ∧
  trace s = trace s0 ++ Enter MDestroy :: destroyEffects.


(** Animations only move on: from [s] to [s'] finished ones stay finished
    and running ones are still running or have finished. *)
Definition advances (s s' : State) : Prop :=
  ∀ b, (finishedAt s b = true → finishedAt s' b = true) ∧
       (runningAt s b = true → runningAt s' b = true ∨ finishedAt s' b = true).


(** [rapidToggle] carried on to the end: the second [open()] starts its
    animation, both animations finish, [close()] and then [open()] complete. *)
Definition rapidToggleToEnd : list Label :=
  rapidToggle ++ [Resume 2; AnimationFinished 1; Resume 1;
                  AnimationFinished 2; Resume 2].




(** *** Invariants of the suspended calls *)

(** No two suspended calls carry the same number. *)
Definition uniqueTids (s : State) : Prop := NoDup (map tid (pending s)).

(** While the picker counts as open and no positioning was ever set up, the
    [open()] that will set it up is still suspended at its first [await]. *)
Definition openRequested (s : State) : Prop :=
  isOpen s = true → positionCleanup s = None →
  ∃ task, In task (pending s) ∧ stage task = OpenInitiated.

Definition wellFormed (s : State) : Prop :=
  tasksInv s ∧ uniqueTids s ∧ openRequested s.

(** No call has rejected so far, and no [destroy()] waits on a [close()]
    that has. *)
Definition noReject (s : State) : Prop :=
  (∀ m, ¬ In (Settled m Rejected) (trace s)) ∧
  (∀ task, In task (pending s) → stage task ≠ DestroyClosing Rejected).

(** *** The last part of [close()] in its turn

    The one thing a run has to respect for no call to reject: the last part
    of a [close()] is not resumed while an [open()] called before it is
    still suspended at its first [await] although every animation it waits
    for has finished. Nothing else is asked of the order of resumption, and
    nothing of when calls and events come or animations finish. *)
Definition isOpenInitiated (task : Task) : bool :=
  match stage task with OpenInitiated => true | _ => false end.

Definition lastPartInTurn (l : Label) (s : State) : bool :=
  match l with
  | Resume t =>
      match findTask t s with
      | Some task =>
          match stage task with
          | CloseAnimating _ =>
              negb (existsb (fun o => isOpenInitiated o && (tid o <? t)%nat
                                      && ready s o)
                            (pending s))
          | _ => true
          end
      | None => true
      end
  | _ => true
  end.

Fixpoint runInTurn (c : Fields) (ls : list Label) (s : State) : option State :=
  match ls with
  | [] => Some s
  | l :: ls' =>
      if lastPartInTurn l s then
        match exec c l s with
        | Some s' => runInTurn c ls' s'
        | None => None
        end
      else None
  end.

(** What holds in such a run as long as no positioning was ever set up:
    every suspended call is an [open()] at its first [await] or a
    [close()]; for every [close()] at its first [await] an [open()] called
    before it is suspended at its first [await] and can go on as soon as the
    [close()] can (what the [open()] waits for, the [close()] waits for too,
    or has finished); for every [close()] at its second [await] such an
    [open()] can go on; while the picker counts as open an [open()] is
    suspended at its first [await]; and what such an [open()] waits for is
    running or has finished. *)
Definition beforeFirstPosition (s : State) : Prop :=
  (∀ task, In task (pending s) →
     stage task = OpenInitiated ∨ (∃ k, stage task = CloseInitiated k) ∨
     (∃ k, stage task = CloseAnimating k)) ∧
  (∀ T k, In T (pending s) → stage T = CloseInitiated k →
     ∃ O, In O (pending s) ∧ stage O = OpenInitiated ∧ tid O < tid T ∧
          ∀ a, In a (awaited O) → In a (awaited T) ∨ finishedAt s a = true) ∧
  (∀ T k, In T (pending s) → stage T = CloseAnimating k →
     ∃ O, In O (pending s) ∧ stage O = OpenInitiated ∧ tid O < tid T ∧
          ∀ a, In a (awaited O) → finishedAt s a = true) ∧
  (isOpen s = true → ∃ O, In O (pending s) ∧ stage O = OpenInitiated) ∧
  (∀ O, In O (pending s) → stage O = OpenInitiated →
        ∀ a, In a (awaited O) → runningAt s a = true ∨ finishedAt s a = true).

Definition inTurnInv (s : State) : Prop :=
  wellFormed s ∧ noReject s ∧
  (positionCleanup s = None → beforeFirstPosition s).

(** *** One call at a time

    The page makes a call, and an event reaches a listener, only when no
    earlier call is still suspended; animations and resumptions come as they
    do. *)
Definition oneAtATime (l : Label) (s : State) : bool :=
  quiet l || match pending s with [] => true | _ => false end.

Fixpoint runOneAtATime (c : Fields) (ls : list Label) (s : State)
    : option State :=
  match ls with
  | [] => Some s
  | l :: ls' =>
      if oneAtATime l s then
        match exec c l s with
        | Some s' => runOneAtATime c ls' s'
        | None => None
        end
      else None
  end.

(** [isOpen] and the document agree: the popup element is a child of the
    root element when the picker counts as open, and out of the document
    when it does not. *)
Definition inStep (c : Fields) (s : State) : Prop :=
  if isOpen s then dom s !! popupEl c = Some (rootElement c)
  else dom s !! popupEl c = None.

(** Where a run of calls made one at a time can be: nothing suspended and
    [isOpen] in step with the document, or a single [open()], [close()] or
    [destroy()] under way. *)
Definition oneCallInv (c : Fields) (s : State) : Prop :=
  (pending s = [] ∧ inStep c s) ∨
  (∃ s0, OpenProgress c s0 s) ∨
  (∃ k s0 pre, CloseProgress c k s0 pre s).

(** The animation a resumed call starts: the part of [open()] and of
    [close()] after the first [await] calls [animateOpenStateChange], which
    starts one if the picker element has [animate]; no other part does. *)
Definition startedBy (c : Fields) (st : Stage) : list Animation :=
  if animateSupported c then
    match st with
    | OpenInitiated => [showHide true]
    | CloseInitiated _ => [showHide false]
    | _ => []
    end
  else [].

(** [demoOpened] closed again by [close()] carried through. *)
Definition closeThrough : list Label :=
  [CallClose; Resume 1; AnimationFinished 1; Resume 1].

Definition demoClosed : State := after demo closeThrough demoOpened.

(** [close()] resumed before the [open()] called before it, and carried to
    its end while that [open()] could go on. *)
Definition closeOvertakes : list Label :=
  [CallOpen; CallClose; Resume 1; AnimationFinished 0; Resume 1].

(** [open()] waits for an animation; a second one, started later, finishes
    in the same frame, before [open()] is resumed. *)
Definition sameFrame : list Label :=
  [AnimationStarted "a"; CallOpen; AnimationStarted "b";
   AnimationFinished 0; AnimationFinished 1; Resume 0].

(** *** C3, C6 and C10 as the specification words them *)




(** [open()] carried through from the start. *)
Definition openThrough : list Label :=
  [CallOpen; Resume 0; AnimationFinished 0; Resume 0].


(** The end of C6 as worded: no positioning is in effect while the picker
    is closed, [isOpen] being what says so. *)
Definition noPositioningWhileClosed (c : Fields) : Prop :=
  ∀ document ls s,
    runInOrder c ls (initial document) = Some s →
    isOpen s = false → positioned s = ∅.

(** The picker opened, then [close()] up to its hide animation. *)
Definition closing : list Label := openThrough ++ [CallClose; Resume 1].



(** [demoOpening] with one more animation of the picker element, paused. *)
Definition demoPaused : State :=
  set_animations
    (animations demoOpening ++ [{| animationName := "other"; playState := Paused |}])
    demoOpening.

End Popup.

(** * Results *)

Module OptionsFacts.
Import Options.

Lemma getOptions_lookup (o : gmap string JsValue) (k : string) :
  getOptions (Some o) !! k =
  match o !! k with
  | Some v => Some v
  | None => if decide (k = "rootElement") then Some (JRef DocumentBody)
            else defaultOptions !! k
  end.
Proof.
  unfold getOptions, spread, default.
  destruct (o !! k) as [v|] eqn:Hk.
  - by apply lookup_union_Some_l.
  - rewrite lookup_union_r by done.
    rewrite (right_id ∅ (∪)).
    case_decide as Hr.
    + subst k. by rewrite lookup_insert_eq.
    + by rewrite lookup_insert_ne.
Qed.

Lemma documentedDefaults_lookup (k : string) (v : JsValue) :
  (k, v) ∈ documentedDefaults →
  (if decide (k = "rootElement") then Some (JRef DocumentBody)
   else defaultOptions !! k) = Some v.
Proof.
  unfold documentedDefaults. intros Hin.
  repeat (apply elem_of_cons in Hin as [Heq | Hin];
          [ injection Heq as -> ->; vm_compute; reflexivity | ]).
  by apply elem_of_nil in Hin.
Qed.

(** C9. Whatever (partial) options object the caller passes, also none at
    all, [getOptions] keeps every property the caller supplied at the
    caller's value (also [rootElement], which then replaces [document.body]),
    and gives every omitted property of the documented list its documented
    default. *)
Theorem getOptions_caller_wins_else_default (options : option (gmap string JsValue)) :
  let o := default ∅ options in
  (∀ k v, o !! k = Some v → getOptions options !! k = Some v) ∧
  (∀ k v, o !! k = None → (k, v) ∈ documentedDefaults →
          getOptions options !! k = Some v).
Proof.
  assert (getOptions options = getOptions (Some (default ∅ options))) as ->
    by (by destruct options).
  split; intros k v Hk.
  - rewrite getOptions_lookup, Hk. reflexivity.
  - intros Hd. rewrite getOptions_lookup, Hk.
    by apply documentedDefaults_lookup.
Qed.

Lemma getOptions_caller_wins_else_default_witness :
  let o : gmap string JsValue :=
    {[ "emojisPerRow" := JNum 10; "rootElement" := JRef (OtherObject 1) ]} in
  getOptions (Some o) !! "emojisPerRow" = Some (JNum 10) ∧
  getOptions (Some o) !! "rootElement" = Some (JRef (OtherObject 1)) ∧
  getOptions (Some o) !! "maxRecents" = Some (JNum 50) ∧
  getOptions None !! "rootElement" = Some (JRef DocumentBody).
Proof.
  intros o.
  pose proof (getOptions_caller_wins_else_default (Some o)) as [Hkeep Hdef].
  pose proof (getOptions_caller_wins_else_default None) as [_ Hdef0].
  split; [| split; [| split]].
  - apply Hkeep. vm_compute. reflexivity.
  - apply Hkeep. vm_compute. reflexivity.
  - apply Hdef; [vm_compute; reflexivity |].
    unfold documentedDefaults. do 9 (apply elem_of_cons; right). apply elem_of_cons. by left.
  - apply Hdef0; [vm_compute; reflexivity |].
    unfold documentedDefaults. do 12 (apply elem_of_cons; right). apply elem_of_cons. by left.
Defined.


(** ** More about [getOptions] *)

Lemma getOptions_some (options : option (gmap string JsValue)) :
  getOptions options = getOptions (Some (default ∅ options)).
Proof. by destruct options. Qed.

Lemma defaultOptions_keys (k : string) :
  is_Some (defaultOptions !! k) ↔ k ∈ defaultKeys.
Proof.
  unfold defaultOptions, defaultKeys. split.
  - intros [v Hv]. apply elem_of_list_to_map_2 in Hv.
    repeat (apply elem_of_cons in Hv as [Hv | Hv];
            [ injection Hv as -> _; set_solver | ]).
    by apply elem_of_nil in Hv.
  - intros Hin.
    repeat (apply elem_of_cons in Hin as [-> | Hin]; [ vm_compute; eauto | ]).
    by apply elem_of_nil in Hin.
Qed.

(** X1. [getOptions] applied to its own result changes nothing: options that
    went through [getOptions] once can be passed through it again. *)
Theorem getOptions_idempotent (options : option (gmap string JsValue)) :
  getOptions (Some (getOptions options)) = getOptions options.
Proof.
  rewrite (getOptions_some options).
  apply map_eq. intros k. rewrite !getOptions_lookup.
  destruct (default ∅ options !! k); [done |].
  case_decide; [done |]. by destruct (defaultOptions !! k).
Qed.

(** X2. The result of [getOptions] has exactly the caller's properties, the
    fifteen properties of [defaultOptions] and [rootElement]. For any other
    property [getOptions] supplies nothing: it is in the result only if the
    caller passed it ([emojiSize], [categories], [emojiData], [messages],
    [autoHide], ... have no default here). *)
Theorem getOptions_keys (options : option (gmap string JsValue)) (k : string) :
  let o := default ∅ options in
  (is_Some (getOptions options !! k) ↔
     is_Some (o !! k) ∨ k = "rootElement" ∨ k ∈ defaultKeys) ∧
  (k ∉ defaultKeys → k ≠ "rootElement" → getOptions options !! k = o !! k).
Proof.
  intros o. rewrite (getOptions_some options), getOptions_lookup. fold o.
  rewrite <- defaultOptions_keys.
  destruct (o !! k) as [v |] eqn:Hk.
  - split; [| done]. split; [by left | eauto].
  - case_decide as Hr.
    + split; [| done]. split; [by right; left | eauto].
    + split.
      * split; [by right; right |]. intros [[? ?] | [? | ?]]; done.
      * intros Hd _. destruct (defaultOptions !! k) eqn:Hdk; [| done].
        destruct Hd. eauto.
Qed.

(** The documentation gives [emojiSize] the default ['2em'];
    [getOptions] leaves it out. *)
Example emojiSize_not_defaulted :
  getOptions None !! "emojiSize" = None.
Proof. vm_compute. reflexivity. Qed.

End OptionsFacts.

Module VariantsFacts.
Import Variants.

Lemma focusNext_mod (n i : nat) :
  i < n → Z.of_nat (focusNext n i) = ((Z.of_nat i + 1) mod Z.of_nat n)%Z.
Proof.
  intros Hi. unfold focusNext.
  destruct (Nat.ltb_spec (S i) n) as [Hlt | Hge].
  - rewrite Z.mod_small; lia.
  - assert (n = S i) as -> by lia.
    replace (Z.of_nat i + 1)%Z with (Z.of_nat (S i)) by lia.
    rewrite Z.mod_same; lia.
Qed.

Lemma focusPrevious_mod (n i : nat) :
  i < n →
  Z.of_nat (focusPrevious n i) = ((Z.of_nat i - 1 + Z.of_nat n) mod Z.of_nat n)%Z.
Proof.
  intros Hi. unfold focusPrevious. destruct i as [| j].
  - rewrite Z.mod_small; lia.
  - replace (Z.of_nat (S j) - 1 + Z.of_nat n)%Z
      with (Z.of_nat j + 1 * Z.of_nat n)%Z by lia.
    rewrite Z.mod_add by lia. rewrite Z.mod_small; lia.
Qed.

(** The run of [VariantPopup.test.ts], 'navigates emojis with arrow keys':
    from button 0, left gives 2, then right gives 0, 1, 2, 0. *)
Example test_navigates_with_arrow_keys :
  let p0 := focus 0 (testView thumbs) in
  let p1 := handleKeydown "ArrowLeft" p0 in
  let p2 := handleKeydown "ArrowRight" p1 in
  let p3 := handleKeydown "ArrowRight" p2 in
  let p4 := handleKeydown "ArrowRight" p3 in
  let p5 := handleKeydown "ArrowRight" p4 in
  map focusedIndex [p1; p2; p3; p4; p5] = [2; 0; 1; 2; 0].
Proof. reflexivity. Qed.

(** The run of 'renders the emoji and its variants'. *)
Example test_renders_emoji_and_variants :
  map textContent (renderVariantPopup thumbs) = ["👍"; "👍🏼"; "👍🏿"].
Proof. reflexivity. Qed.

(** C7. In a variant popup with [n] buttons of which button [i] has the
    focus, ArrowRight moves the focus to button [(i+1) mod n] and ArrowLeft to
    button [(i-1+n) mod n]: from the last button right goes to the first,
    from the first button left goes to the last. *)
Theorem arrow_keys_cycle (p : VariantPopup) (n i : nat) :
  length (buttons p) = n → focusedIndex p = i → i < n →
  Z.of_nat (focusedIndex (handleKeydown "ArrowRight" p))
    = ((Z.of_nat i + 1) mod Z.of_nat n)%Z ∧
  Z.of_nat (focusedIndex (handleKeydown "ArrowLeft" p))
    = ((Z.of_nat i - 1 + Z.of_nat n) mod Z.of_nat n)%Z ∧
  (i = n - 1 → focusedIndex (handleKeydown "ArrowRight" p) = 0) ∧
  (i = 0 → focusedIndex (handleKeydown "ArrowLeft" p) = n - 1).
Proof.
  intros Hn Hf Hi. unfold handleKeydown; simpl. rewrite Hn, Hf.
  repeat split.
  - by apply focusNext_mod.
  - by apply focusPrevious_mod.
  - intros ->. unfold focusNext.
    destruct (Nat.ltb_spec (S (n - 1)) n); [lia | done].
  - by intros ->.
Qed.

Lemma arrow_keys_cycle_witness :
  let p := focus 2 (testView thumbs) in
  Z.of_nat (focusedIndex (handleKeydown "ArrowRight" p)) = ((2 + 1) mod 3)%Z ∧
  Z.of_nat (focusedIndex (handleKeydown "ArrowLeft" p)) = ((2 - 1 + 3) mod 3)%Z.
Proof.
  pose proof (arrow_keys_cycle (focus 2 (testView thumbs)) 3 2
                eq_refl eq_refl ltac:(lia)) as (Hr & Hl & _).
  split; [exact Hr | exact Hl].
Defined.

(** C8. For an emoji record with [k] skin variants the variant popup renders
    [k+1] buttons: the first holds the base emoji, the [k] following ones the
    variants' emoji in the order of the record's [skins] array. *)
Theorem renderVariantPopup_buttons (e : EmojiRecord) :
  length (renderVariantPopup e) = length (skins e) + 1 ∧
  map textContent (renderVariantPopup e) = emoji e :: map v_emoji (skins e) ∧
  (∀ j v, skins e !! j = Some v →
          textContent <$> renderVariantPopup e !! S j = Some (v_emoji v)).
Proof.
  unfold renderVariantPopup. repeat split.
  - simpl. rewrite length_map. lia.
  - simpl. f_equal. rewrite map_map. reflexivity.
  - intros j v Hj. simpl. rewrite list_lookup_fmap, Hj. reflexivity.
Qed.

Lemma renderVariantPopup_buttons_witness :
  length (renderVariantPopup thumbs) = 3 ∧
  textContent <$> renderVariantPopup thumbs !! 2 = Some "👍🏿".
Proof.
  pose proof (renderVariantPopup_buttons thumbs) as (Hlen & _ & Hnth).
  split; [exact Hlen | exact (Hnth 1 _ eq_refl)].
Defined.

End VariantsFacts.

Module PopupFacts.
Import Popup.
Local Open Scope nat_scope.
Local Open Scope list_scope.

(** ** The document: [contains] decides [InclusiveDescendant] *)

Lemma containsFrom_sound (fuel : nat) (d : gmap nat nat) (a n : nat) :
  containsFrom fuel d a n = true → InclusiveDescendant d a n.
Proof.
  revert n. induction fuel as [| fuel IH]; intros n; simpl.
  - destruct (Nat.eqb_spec n a) as [-> | _]; [constructor | discriminate].
  - destruct (Nat.eqb_spec n a) as [-> | _]; [constructor |].
    destruct (d !! n) as [p |] eqn:Hp; [| discriminate].
    intros H. eapply descendant_child; eauto.
Qed.

Lemma containsFrom_weaken (fuel : nat) (d d' : gmap nat nat) (a n : nat) :
  d ⊆ d' → containsFrom fuel d a n = true → containsFrom fuel d' a n = true.
Proof.
  intros Hsub. revert n. induction fuel as [| fuel IH]; intros n; simpl.
  - done.
  - destruct (Nat.eqb n a); [done |].
    destruct (d !! n) as [p |] eqn:Hp; [| discriminate].
    rewrite (lookup_weaken _ _ _ _ Hp Hsub). apply IH.
Qed.

(** A chain of parents from [x] up to [a] either avoids [n], or passes
    through it, and then the part after its last visit starts at [n]'s
    parent. *)
Lemma descendant_avoiding (d : gmap nat nat) (a n p x : nat) :
  d !! n = Some p →
  InclusiveDescendant d a x →
  InclusiveDescendant (delete n d) a x ∨ InclusiveDescendant (delete n d) a p.
Proof.
  intros Hn. induction 1 as [| x q Hx Hq [IH | IH]].
  - left. constructor.
  - destruct (decide (x = n)) as [-> | Hne].
    + right. congruence.
    + left. eapply descendant_child; [| exact IH].
      by rewrite lookup_delete_ne.
  - by right.
Qed.

Lemma containsFrom_complete (fuel : nat) (d : gmap nat nat) (a n : nat) :
  size d ≤ fuel → InclusiveDescendant d a n → containsFrom fuel d a n = true.
Proof.
  revert d n. induction fuel as [| fuel IH]; intros d n Hsize Hdesc.
  - simpl. destruct (Nat.eqb_spec n a) as [| Hne]; [done |].
    destruct Hdesc as [| n p Hp _]; [done |].
    assert (d = ∅) as -> by (apply map_size_empty_iff; lia).
    by rewrite lookup_empty in Hp.
  - simpl. destruct (Nat.eqb_spec n a) as [| Hne]; [done |].
    destruct Hdesc as [| n p Hp Hdesc]; [done |].
    rewrite Hp.
    assert (InclusiveDescendant (delete n d) a p) as Hdel.
    { destruct (descendant_avoiding d a n p p Hp Hdesc); assumption. }
    apply (containsFrom_weaken _ (delete n d)); [apply delete_subseteq |].
    apply IH; [| exact Hdel].
    pose proof (map_size_delete_Some n d (mk_is_Some _ _ Hp)). lia.
Qed.

Lemma contains_spec (d : gmap nat nat) (a n : nat) :
  contains d a n = true ↔ InclusiveDescendant d a n.
Proof.
  split.
  - apply containsFrom_sound.
  - by apply containsFrom_complete.
Qed.

(** ** The record of effects *)

Lemma effectsSince_app (s s' : State) (l : list Effect) :
  trace s' = trace s ++ l → effectsSince s s' = l.
Proof. intros H. unfold effectsSince. rewrite H. by rewrite drop_app_length. Qed.

Lemma emitted_effect (e : Effect) (s : State) :
  emitted (effect e s) =
  emitted s ++ match e with Emit ev => [ev] | _ => [] end.
Proof.
  unfold emitted; simpl. rewrite omap_app. f_equal. by destruct e.
Qed.

Lemma trace_open (s : State) :
  trace (open s) =
  trace s ++ Enter MOpen :: (if isOpen s then [Settled MOpen Resolved] else []).
Proof.
  unfold open; simpl. destruct (isOpen s); simpl; by rewrite <- ?app_assoc.
Qed.

Lemma trace_close (k : Continuation) (s : State) :
  trace (close k s) =
  trace s ++ Enter MClose :: (if isOpen s then [] else [Settled MClose Resolved]).
Proof.
  unfold close; simpl. destruct (isOpen s), k; simpl; by rewrite <- ?app_assoc.
Qed.

Lemma isOpen_close (k : Continuation) (s : State) : isOpen (close k s) = false.
Proof. unfold close; simpl. by destruct (isOpen s) eqn:E, k; simpl. Qed.

Lemma isClickOnTrigger_spec (c : Fields) (ev : MouseEvent) (s : State) :
  isClickOnTrigger c ev s = true ↔ clickedOnTrigger c ev s.
Proof.
  unfold isClickOnTrigger, clickedOnTrigger. split.
  - destruct (triggerElement c) as [t |]; [| done].
    destruct (target ev) as [n |]; [| done].
    intros H. exists t, n. by rewrite <- contains_spec.
  - intros (t & n & -> & -> & H). by apply contains_spec.
Qed.

(** ** Listeners *)

(** C1. While the controller's click listener is on the document, a click
    dispatched there makes the controller call [close()] exactly when the
    picker is open, the click is not a click on the picker, and its target is
    neither the trigger element nor one of its descendants. *)
Theorem onDocumentClick_closes_iff (c : Fields) (s s' : State) (ev : MouseEvent) :
  documentClick s = true →
  exec c (DocumentClick ev) s = Some s' →
  In (Enter MClose) (effectsSince s s') ↔
  isOpen s = true ∧ pickerClick ev = false ∧ ¬ clickedOnTrigger c ev s.
Proof.
  intros Hl Hex. simpl in Hex. rewrite Hl in Hex. injection Hex as <-.
  rewrite <- isClickOnTrigger_spec. unfold onDocumentClick.
  destruct (isOpen s) eqn:Ho, (pickerClick ev) eqn:Hp,
           (isClickOnTrigger c ev s) eqn:Ht; simpl;
    try (rewrite (effectsSince_app s s []) by (by rewrite app_nil_r);
         simpl; split; [tauto | intros (? & ? & ?); congruence]).
  rewrite (effectsSince_app _ _ _ (trace_close Detached s)), Ho.
  split; [intros _ | intros _; by left].
  repeat split; congruence.
Qed.

Lemma onDocumentClick_closes_iff_witness :
  let c := construct {| opt_rootElement := None; opt_autoHide := None;
                        opt_triggerElement := Some 5 |} 1 2 true in
  let d : gmap nat nat := {[ 5 := 1; 6 := 5; 7 := 1 ]} in
  let s := set_isOpen true (initial d) in
  let outside := {| target := Some 7; pickerClick := false |} in
  In (Enter MClose) (effectsSince s (onDocumentClick c outside s)) ↔
  isOpen s = true ∧ pickerClick outside = false ∧ ¬ clickedOnTrigger c outside s.
Proof.
  intros c d s outside.
  apply (onDocumentClick_closes_iff c s (onDocumentClick c outside s) outside).
  - reflexivity.
  - reflexivity.
Defined.

(** C5. A keydown on the popup element makes the controller call [close()]
    exactly when the key is Escape, and then the picker's open state is
    false; a keydown with any other key changes nothing, the open state
    included. *)
Theorem handleKeydown_closes_iff_escape (s : State) (ev : KeyboardEvent) :
  (In (Enter MClose) (effectsSince s (handleKeydown ev s)) ↔ key ev = "Escape") ∧
  (key ev = "Escape" → isOpen (handleKeydown ev s) = false) ∧
  (key ev ≠ "Escape" → handleKeydown ev s = s).
Proof.
  unfold handleKeydown.
  destruct (String.eqb_spec (key ev) "Escape") as [He | Hne].
  - split; [| split]; [| | done].
    + rewrite (effectsSince_app _ _ _ (trace_close Detached s)).
      split; [done | intros _; by left].
    + intros _. apply isOpen_close.
  - split; [| split]; [| done | done].
    rewrite (effectsSince_app s s []) by (by rewrite app_nil_r).
    simpl. tauto.
Qed.

Lemma handleKeydown_closes_iff_escape_witness :
  let s := set_isOpen true (initial ∅) in
  isOpen (handleKeydown {| key := "Escape" |} s) = false ∧
  handleKeydown {| key := "Enter" |} s = s.
Proof.
  intros s.
  pose proof (handleKeydown_closes_iff_escape s {| key := "Escape" |}) as (_ & Hesc & _).
  pose proof (handleKeydown_closes_iff_escape s {| key := "Enter" |}) as (_ & _ & Hother).
  split; [apply Hesc; reflexivity | apply Hother; discriminate].
Defined.

(** ** open and close when there is nothing to do *)

(** C4. [open()] on an open picker and [close()] on a closed one resolve at
    once and do nothing: no field of the controller, nothing in the document,
    no positioning, animation, listener or suspended call changes, and no
    event is emitted. *)
Theorem open_close_idempotent (s : State) :
  (isOpen s = true →
     unchanged s (open s) ∧
     effectsSince s (open s) = [Enter MOpen; Settled MOpen Resolved]) ∧
  (isOpen s = false →
     unchanged s (close Detached s) ∧
     effectsSince s (close Detached s) = [Enter MClose; Settled MClose Resolved]).
Proof.
  split; intros Ho.
  - split.
    + unfold open, unchanged; simpl. rewrite Ho; simpl.
      repeat split; try done.
      unfold emitted; simpl. rewrite !omap_app; simpl. by rewrite !app_nil_r.
    + rewrite (effectsSince_app _ _ _ (trace_open s)). by rewrite Ho.
  - split.
    + unfold close, unchanged; simpl. rewrite Ho; simpl.
      repeat split; try done.
      unfold emitted; simpl. rewrite !omap_app; simpl. by rewrite !app_nil_r.
    + rewrite (effectsSince_app _ _ _ (trace_close Detached s)). by rewrite Ho.
Qed.

Lemma open_close_idempotent_witness :
  let opened := set_isOpen true (initial ∅) in
  unchanged opened (open opened) ∧
  unchanged (initial ∅) (close Detached (initial ∅)).
Proof.
  intros opened.
  pose proof (open_close_idempotent opened) as [Hopen _].
  pose proof (open_close_idempotent (initial ∅)) as [_ Hclose].
  split; [apply Hopen | apply Hclose]; reflexivity.
Defined.

(** ** Invariants of every run *)

Lemma emit_eq (e : string) (s : State) :
  emit e s =
  set_trace (trace s ++ Emit e :: map (fun cb => Callback cb e) (callbacksFor e s)) s.
Proof.
  unfold emit.
  assert (∀ cbs s0,
    foldl (fun s cb => effect (Callback cb e) s) s0 cbs =
    set_trace (trace s0 ++ map (fun cb => Callback cb e) cbs) s0) as Hfold.
  { induction cbs as [| cb cbs IH]; intros s0; simpl.
    - rewrite app_nil_r. by destruct s0.
    - rewrite IH. unfold effect, set_trace; simpl. by rewrite <- app_assoc. }
  rewrite Hfold. unfold effect, set_trace, callbacksFor; simpl.
  by rewrite <- app_assoc.
Qed.

Ltac unfold_controller :=
  unfold toggle, destroy, handleKeydown, onDocumentClick, onEmojiSelect,
    resume;
  unfold open_afterInitiate, open_afterAnimate, close_afterInitiate,
    close_afterAnimate, destroy_afterClose;
  unfold open, close, destroy_rest, on, settleClose;
  unfold initiateOpenStateChange, animateOpenStateChange, setPosition;
  unfold installPosition, callCleanup, appendChild, removeElement, removeAll,
    pickerCall, suspend, resuspend, dropTask;
  try rewrite !emit_eq.

(** Case analysis on every test the unfolded code makes, innermost first. *)
Ltac crunch :=
  repeat (simpl;
          match goal with
          | |- context [match ?x with _ => _ end] =>
              lazymatch x with
              | context [match _ with _ => _ end] => fail
              | _ => destruct x eqn:?
              end
          end);
  simpl.

Lemma findTask_In (t : nat) (s : State) (task : Task) :
  findTask t s = Some task → In task (pending s) ∧ tid task = t.
Proof.
  unfold findTask. intros H. apply find_some in H as [Hin Heq].
  split; [done |]. by apply Nat.eqb_eq.
Qed.

(** A property kept by every call, listener, animation event and resumed
    segment is kept by every step. *)
Lemma exec_preserves (c : Fields) (P : State → Prop) :
  (∀ e s, P s → P (effect e s)) →
  (∀ s, P s → P (open s)) →
  (∀ k s, P s → P (close k s)) →
  (∀ s, P s → P (destroy_rest s)) →
  (∀ e cb s, P s → P (on e cb s)) →
  (∀ v s, P s → P (set_animations v s)) →
  (∀ t task s, findTask t s = Some task → ready s task = true →
               P s → P (resume c task (dropTask t s))) →
  ∀ l s s', P s → exec c l s = Some s' → P s'.
Proof.
  intros Heff Hopen Hclose Hrest Hon Hanim Hres l s s' HP Hex.
  destruct l; simpl in Hex.
  - injection Hex as <-. by apply Hopen.
  - injection Hex as <-. by apply Hclose.
  - injection Hex as <-. unfold toggle; simpl.
    destruct (isOpen s); [apply Hclose | apply Hopen]; by apply Heff.
  - injection Hex as <-. unfold destroy; simpl.
    destruct (isOpen s); [apply Hclose | apply Hrest]; by apply Heff.
  - injection Hex as <-. by apply Hon.
  - injection Hex as <-. unfold onDocumentClick.
    destruct (documentClick s); [| done].
    destruct (_ && _); [by apply Hclose | done].
  - injection Hex as <-. unfold handleKeydown.
    destruct (String.eqb _ _); [by apply Hclose | done].
  - injection Hex as <-. unfold onEmojiSelect.
    destruct (autoHide c); [by apply Hclose | done].
  - injection Hex as <-. by apply Hanim.
  - destruct (animations s !! a) as [anim |]; [| discriminate].
    destruct (isRunning anim); [| discriminate].
    injection Hex as <-. by apply Hanim.
  - destruct (findTask t s) as [task |] eqn:Hfind; [| discriminate].
    destruct (ready s task) eqn:Hready; [| discriminate].
    injection Hex as <-. by apply Hres.
Qed.

Lemma run_invariant (c : Fields) (P : State → Prop) :
  (∀ l s s', P s → exec c l s = Some s' → P s') →
  ∀ ls s s', P s → run c ls s = Some s' → P s'.
Proof.
  intros Hstep. induction ls as [| l ls IH]; intros s s' HP Hrun; simpl in Hrun.
  - by injection Hrun as <-.
  - destruct (exec c l s) as [s1 |] eqn:Hex; [| discriminate].
    eapply IH; [| exact Hrun]. eapply Hstep; eauto.
Qed.

Lemma run_app (c : Fields) (ls1 ls2 : list Label) (s : State) :
  run c (ls1 ++ ls2) s =
  match run c ls1 s with
  | Some s1 => run c ls2 s1
  | None => None
  end.
Proof.
  revert s. induction ls1 as [| l ls1 IH]; intros s; simpl; [done |].
  destruct (exec c l s); [apply IH | done].
Qed.

Lemma positionedInv_exec (c : Fields) (l : Label) (s s' : State) :
  positionedInv c s → exec c l s = Some s' → positionedInv c s'.
Proof.
  apply (exec_preserves c (positionedInv c));
    unfold positionedInv, currentCleanup; clear.
  1-6: by (intros; unfold_controller; crunch).
  intros t task s _ _ [Hsub Hdet]. unfold_controller. crunch.
  all: try (split; [set_solver | simpl; try done]).
  all: try (rewrite lookup_insert_eq; done).
  all: try (intros _; set_solver).
Qed.

Ltac split_membership Hinv :=
  repeat match goal with
         | H : In _ (_ ++ _) |- _ => apply in_app_or in H as [H | H]
         | H : In _ (List.filter _ _) |- _ => apply filter_In in H as [H _]
         | H : In _ [_] |- _ => destruct H as [<- | []]; simpl
         | H : In _ (pending _) |- _ => apply Hinv in H
         end.

Lemma tasksInv_exec (c : Fields) (l : Label) (s s' : State) :
  tasksInv s → exec c l s = Some s' → tasksInv s'.
Proof.
  apply (exec_preserves c tasksInv); unfold tasksInv; clear.
  - intros e s Hinv task. unfold_controller. crunch. apply Hinv.
  - intros s Hinv task. unfold_controller. crunch; intros Hin;
      split_membership Hinv; lia.
  - intros k s Hinv task. unfold_controller. crunch; intros Hin;
      split_membership Hinv; lia.
  - intros s Hinv task. unfold_controller. crunch. apply Hinv.
  - intros e cb s Hinv task. unfold_controller. crunch. apply Hinv.
  - intros v s Hinv task. apply Hinv.
  - intros t task0 s Hfind _ Hinv task.
    apply findTask_In in Hfind as [Hin0 Htid0]. apply Hinv in Hin0.
    unfold_controller. crunch; intros Hin; split_membership Hinv; lia.
Qed.

Lemma reachable_positionedInv (c : Fields) (s : State) :
  reachable c s → positionedInv c s.
Proof.
  intros (d & ls & Hrun).
  eapply (run_invariant c (positionedInv c)); [| | exact Hrun].
  - intros l s0 s1. apply positionedInv_exec.
  - split; [set_solver | done].
Qed.

Lemma reachable_tasksInv (c : Fields) (s : State) :
  reachable c s → tasksInv s.
Proof.
  intros (d & ls & Hrun).
  eapply (run_invariant c tasksInv); [| | exact Hrun].
  - intros l s0 s1. apply tasksInv_exec.
  - intros task [].
Qed.

(** ** Positioning *)

Lemma positioned_setPosition (s : State) :
  positioned s ⊆ currentCleanup s →
  positioned (setPosition s) = {[nextPosition s]}.
Proof.
  unfold currentCleanup, setPosition, installPosition, callCleanup.
  destruct (positionCleanup s); simpl; set_solver.
Qed.

Lemma trace_setPosition (s : State) :
  trace (setPosition s) =
  trace s ++ match positionCleanup s with
             | Some f => [PositionCleanupCall f]
             | None => []
             end ++ [PositionInstall (nextPosition s)].
Proof.
  unfold setPosition, installPosition, callCleanup.
  destruct (positionCleanup s); simpl; by rewrite <- ?app_assoc.
Qed.

Lemma close_afterAnimate_effects (c : Fields) (k : Continuation) (t t' : nat)
    (s : State) :
  trace (close_afterAnimate c t' k (dropTask t s)) =
  trace s ++ RemoveChild (popupEl c) :: PickerCall Reset ::
    match positionCleanup s with
    | Some f => [PositionCleanupCall f; Settled MClose Resolved]
    | None => [Settled MClose Rejected]
    end.
Proof.
  unfold_controller. simpl. destruct (positionCleanup s), k; simpl;
    by rewrite <- ?app_assoc.
Qed.

Lemma close_afterAnimate_detached (c : Fields) (k : Continuation) (t t' : nat)
    (s : State) :
  dom (close_afterAnimate c t' k (dropTask t s)) !! popupEl c = None.
Proof.
  unfold_controller. simpl. destruct (positionCleanup s), k; simpl;
    by rewrite lookup_delete_eq.
Qed.

Lemma exec_resume (c : Fields) (t : nat) (task : Task) (s s' : State) :
  findTask t s = Some task → exec c (Resume t) s = Some s' →
  ready s task = true ∧ s' = resume c task (dropTask t s).
Proof.
  intros Hfind Hex. simpl in Hex. rewrite Hfind in Hex.
  destruct (ready s task); [| discriminate]. by injection Hex as <-.
Qed.

(** C6. At every point of the controller's life at most one positioning is
    in effect, the one whose cleanup the controller holds: [setPosition]
    calls the previous cleanup (if there is one) before it installs the new
    positioning, which is then the only one; the last part of [close()]
    removes the popup element and then calls the cleanup, after which no
    positioning is in effect; and none is in effect whenever the popup
    element is out of the document, which is where [close()] leaves it. *)
Theorem at_most_one_positioning (c : Fields) (s : State) :
  reachable c s →
  (size (positioned s) ≤ 1 ∧ positioned s ⊆ currentCleanup s) ∧
  (effectsSince s (setPosition s) =
     match positionCleanup s with
     | Some f => [PositionCleanupCall f]
     | None => []
     end ++ [PositionInstall (nextPosition s)] ∧
   positioned (setPosition s) = {[nextPosition s]} ∧
   positionCleanup (setPosition s) = Some (nextPosition s)) ∧
  (∀ t task k s',
     findTask t s = Some task → stage task = CloseAnimating k →
     exec c (Resume t) s = Some s' →
     effectsSince s s' =
       RemoveChild (popupEl c) :: PickerCall Reset ::
       match positionCleanup s with
       | Some f => [PositionCleanupCall f; Settled MClose Resolved]
       | None => [Settled MClose Rejected]
       end ∧
     dom s' !! popupEl c = None ∧
     positioned s' = ∅) ∧
  (dom s !! popupEl c = None → positioned s = ∅).
Proof.
  intros Hreach.
  pose proof (reachable_positionedInv c s Hreach) as [Hsub Hdet].
  split; [| split; [| split]].
  - split; [| done].
    apply subseteq_size in Hsub. unfold currentCleanup in Hsub.
    destruct (positionCleanup s).
    + by rewrite size_singleton in Hsub.
    + rewrite size_empty in Hsub. lia.
  - split; [| split].
    + apply effectsSince_app, trace_setPosition.
    + by apply positioned_setPosition.
    + unfold setPosition, installPosition, callCleanup.
      by destruct (positionCleanup s).
  - intros t task k s' Hfind Hstage Hex.
    assert (positionedInv c s') as [_ Hdet'].
    { eapply positionedInv_exec; [| exact Hex]. by split. }
    apply (exec_resume c t task) in Hex as [_ ->]; [| done].
    unfold resume in *. rewrite Hstage in *.
    pose proof (close_afterAnimate_detached c k t (tid task) s) as Hgone.
    split; [| split].
    + apply effectsSince_app, close_afterAnimate_effects.
    + exact Hgone.
    + by apply Hdet'.
  - exact Hdet.
Qed.

Lemma demoOpened_reachable : reachable demo demoOpened.
Proof.
  exists demoDocument, [CallOpen; Resume 0; AnimationFinished 0; Resume 0].
  vm_compute. reflexivity.
Qed.

Lemma at_most_one_positioning_witness :
  size (positioned demoOpened) ≤ 1 ∧
  positioned (setPosition demoOpened) = {[nextPosition demoOpened]}.
Proof.
  pose proof (at_most_one_positioning demo demoOpened demoOpened_reachable)
    as ((Hsize & _) & (_ & Hset & _) & _).
  split; [exact Hsize | exact Hset].
Defined.

(** C6, its end as worded: false. [initiateOpenStateChange(false)] sets
    [isOpen] to false at once, while [close()] calls the positioning cleanup
    only in its last part, after the hide animation: all that time the
    picker counts as closed and the positioning set up by [open()] is still
    in effect. Here: the picker opened, [close()] called and resumed up to
    its hide animation. *)
Lemma positioning_active_while_closing :
  (∃ s, runInOrder demo closing (initial demoDocument) = Some s ∧
        isOpen s = false ∧ pending s ≠ [] ∧ positioned s = {[0]}) ∧
  ¬ noPositioningWhileClosed demo.
Proof.
  split.
  - exists (after demo closing (initial demoDocument)).
    split; [vm_compute; reflexivity |]. split; [vm_compute; reflexivity |].
    split; [vm_compute; discriminate | vm_compute; reflexivity].
  - intros Hclaim.
    assert (positioned (after demo closing (initial demoDocument)) = ∅) as Habsurd.
    { apply (Hclaim demoDocument closing); vm_compute; reflexivity. }
    assert (0 ∈ positioned (after demo closing (initial demoDocument))) as Hin
      by (vm_compute; reflexivity).
    rewrite Habsurd in Hin. set_solver.
Qed.

(** ** Sequencing of animations *)

Lemma elem_of_getRunningAnimations (s : State) (a : nat) :
  a ∈ getRunningAnimations s ↔ runningAt s a = true.
Proof.
  unfold getRunningAnimations. rewrite list_elem_of_filter, elem_of_seq.
  split; [tauto |]. intros Hr. split; [done |].
  unfold runningAt in Hr.
  destruct (animations s !! a) eqn:Ha; [| discriminate].
  apply lookup_lt_Some in Ha. lia.
Qed.

Lemma initiatedInv_exec (c : Fields) (t : nat) (o : bool) (w : list nat)
    (l : Label) (s s' : State) :
  initiatedInv t o w s → exec c l s = Some s' → initiatedInv t o w s'.
Proof.
  apply (exec_preserves c (initiatedInv t o w)); unfold initiatedInv; clear.
  - intros e s [Hlt Hinv]. split; [done |]. intros task. apply Hinv.
  - intros s [Hlt Hinv]. unfold_controller. crunch; (split; [lia |]);
      intros task Hin Htid Hst; try (by apply Hinv).
    apply in_app_or in Hin as [Hin | [<- | []]]; [by apply Hinv |].
    simpl in Htid. lia.
  - intros k s [Hlt Hinv]. unfold_controller. crunch; (split; [lia |]);
      intros task Hin Htid Hst; try (by apply Hinv).
    all: apply in_app_or in Hin as [Hin | [<- | []]]; [by apply Hinv |].
    all: simpl in *; try lia; try discriminate.
  - intros s [Hlt Hinv]. split; [done |]. intros task. apply Hinv.
  - intros e cb s [Hlt Hinv]. split; [done |]. intros task. apply Hinv.
  - intros v s [Hlt Hinv]. split; [done |]. intros task. apply Hinv.
  - intros t0 task0 s _ _ [Hlt Hinv]. unfold_controller.
    crunch; (split; [lia |]); intros task Hin Htid Hst.
    all: repeat match goal with
           | H : In _ (_ ++ _) |- _ => apply in_app_or in H as [H | H]
           | H : In _ (List.filter _ _) |- _ => apply filter_In in H as [H _]
           | H : In _ [_] |- _ => destruct H as [<- | []]; simpl in *
           end; try (by apply Hinv); try lia; try discriminate.
Qed.

Lemma trace_resume_initiated (c : Fields) (task : Task) (t : nat) (o : bool)
    (w : list nat) (s : State) :
  task = {| tid := t; stage := initiatedStage o; awaited := w |} →
  animateSupported c = true →
  animations (resume c task (dropTask t s)) = animations s ++ [showHide o].
Proof.
  intros -> Han. unfold resume, initiatedStage, showHide.
  destruct o; unfold_controller; rewrite Han; crunch; reflexivity.
Qed.

Lemma finishedAt_resume (c : Fields) (task : Task) (t a : nat) (s : State) :
  finishedAt s a = true → finishedAt (resume c task (dropTask t s)) a = true.
Proof.
  unfold finishedAt.
  destruct (animations s !! a) as [x |] eqn:Ha; [| discriminate]. intros Hf.
  assert (∀ extra, (animations s ++ extra) !! a = Some x) as Happ.
  { intros extra. by apply lookup_app_l_Some. }
  unfold_controller. crunch; try (rewrite Happ in *); congruence.
Qed.

(** C2, as the code has it. When [open()] or [close()] initiates a change of
    the open state, it sets [isOpen] to the target at once, starts no
    animation yet, and is suspended waiting for exactly the animations of the
    picker element that are running at that moment. However the run goes on,
    by the time this call is resumed and starts its show or hide animation
    every one of those animations has finished: the new animation never
    overlaps an animation that was running when the change was initiated. *)
Theorem initiation_waits_for_running (c : Fields) (openState : bool) (s : State) :
  reachable c s → isOpen s = negb openState →
  let s1 := initiate openState s in
  let t := nextTask s in
  (isOpen s1 = openState ∧ animations s1 = animations s ∧
   pending s1 = pending s ++
     [{| tid := t; stage := initiatedStage openState;
         awaited := getRunningAnimations s |}]) ∧
  ∀ ls s2 s3 task,
    run c ls s1 = Some s2 →
    findTask t s2 = Some task → isInitiated (stage task) = true →
    exec c (Resume t) s2 = Some s3 →
    (∀ a, runningAt s a = true →
          finishedAt s2 a = true ∧ finishedAt s3 a = true) ∧
    (animateSupported c = true →
     animations s3 = animations s2 ++ [showHide openState]).
Proof.
  intros Hreach Hopen s1 t.
  assert (isOpen s1 = openState ∧ animations s1 = animations s ∧
          pending s1 = pending s ++
            [{| tid := t; stage := initiatedStage openState;
                awaited := getRunningAnimations s |}] ∧
          nextTask s1 = S t) as (Hio & Han & Hpend & Hnext).
  { subst s1 t. unfold initiate, initiatedStage.
    destruct openState; unfold_controller; simpl in *; rewrite Hopen; simpl;
      done. }
  split; [done |].
  intros ls s2 s3 task Hrun Hfind Hst Hex.
  assert (initiatedInv t openState (getRunningAnimations s) s2) as [_ Hinv].
  { eapply (run_invariant c (initiatedInv t openState (getRunningAnimations s)));
      [| | exact Hrun].
    - intros l s0 s0'. apply initiatedInv_exec.
    - split; [lia |]. intros task0 Hin Htid _. rewrite Hpend in Hin.
      apply in_app_or in Hin as [Hin | [<- | []]]; [| done].
      apply (reachable_tasksInv c s Hreach) in Hin. subst t. lia. }
  pose proof (findTask_In _ _ _ Hfind) as [Hin Htid].
  pose proof (Hinv task Hin Htid Hst) as Htask.
  apply (exec_resume c t task) in Hex as [Hready ->]; [| done].
  split.
  - intros a Ha. apply elem_of_getRunningAnimations in Ha.
    assert (finishedAt s2 a = true) as Hfin.
    { unfold ready in Hready. rewrite forallb_forall in Hready.
      apply Hready. rewrite Htask; simpl. by apply list_elem_of_In. }
    split; [done |]. by apply finishedAt_resume.
  - intros Hsup. by apply (trace_resume_initiated c task t openState
                             (getRunningAnimations s)).
Qed.

Lemma demoOpening_reachable : reachable demo demoOpening.
Proof.
  exists demoDocument, [CallOpen; Resume 0]. vm_compute. reflexivity.
Qed.

(** [close()] called while the show animation (animation 0) runs: it is
    resumed only once that animation has finished, and then starts the hide
    animation. *)
Lemma initiation_waits_for_running_witness :
  let s1 := initiate false demoOpening in
  let s2 := after demo [AnimationFinished 0; Resume 0] s1 in
  let s3 := after demo [Resume 1] s2 in
  isOpen s1 = false ∧
  finishedAt s2 0 = true ∧
  animations s3 = animations s2 ++ [showHide false].
Proof.
  intros s1 s2 s3.
  pose proof (initiation_waits_for_running demo false demoOpening
                demoOpening_reachable eq_refl) as [(Hio & _) Hlater].
  split; [exact Hio |].
  destruct (Hlater [AnimationFinished 0; Resume 0] s2 s3
              {| tid := 1; stage := CloseInitiated Detached; awaited := [0] |})
    as [Hfin Hanim].
  - vm_compute. reflexivity.
  - vm_compute. reflexivity.
  - reflexivity.
  - vm_compute. reflexivity.
  - split.
    + apply (Hfin 0). vm_compute. reflexivity.
    + apply Hanim. reflexivity.
Defined.

(** C2 as the specification words it does not hold: toggled rapidly, the
    second [open()] starts its show animation while the hide animation that
    [close()] started just before is still running. Both calls had waited
    for the same first show animation. *)
Lemma show_and_hide_overlap :
  runInOrder demo rapidToggle (initial demoDocument) = Some demoToggled ∧
  inOrder (Resume 2) demoToggled = true ∧
  (animations demoToggled !! 1 = Some (showHide false)) ∧
  (animations <$> exec demo (Resume 2) demoToggled
     = Some (animations demoToggled ++ [showHide true])) ∧
  ¬ animationsNeverOverlap demo.
Proof.
  assert (runInOrder demo rapidToggle (initial demoDocument) = Some demoToggled)
    as Hrun by (vm_compute; reflexivity).
  assert (inOrder (Resume 2) demoToggled = true) as Hord
    by (vm_compute; reflexivity).
  split; [exact Hrun |]. split; [exact Hord |].
  split; [vm_compute; reflexivity |].
  split; [vm_compute; reflexivity |].
  intros Hnever.
  assert (runningAt demoToggled 1 = false) as Habsurd.
  { apply (Hnever demoDocument rapidToggle (Resume 2) demoToggled
             (after demo [Resume 2] demoToggled) Hrun Hord).
    - vm_compute. reflexivity.
    - exists 2, true. vm_compute. tauto. }
  vm_compute in Habsurd. discriminate Habsurd.
Qed.

(** ** A call carried through on its own *)

Lemma quiet_cases (c : Fields) (l : Label) (s s' : State) :
  quiet l = true → exec c l s = Some s' →
  (∃ v, s' = set_animations v s) ∨
  (∃ t task, findTask t s = Some task ∧ s' = resume c task (dropTask t s)).
Proof.
  intros Hq Hex. destruct l; try discriminate Hq; simpl in Hex.
  - injection Hex as <-. left. eauto.
  - destruct (animations s !! a) as [anim |]; [| discriminate].
    destruct (isRunning anim); [| discriminate].
    injection Hex as <-. left. eauto.
  - destruct (findTask t s) as [task |] eqn:Hfind; [| discriminate].
    destruct (ready s task); [| discriminate].
    injection Hex as <-. right. eauto.
Qed.

Lemma quiet_run_invariant (c : Fields) (P : State → Prop) :
  (∀ l s s', quiet l = true → P s → exec c l s = Some s' → P s') →
  ∀ ls s s', forallb quiet ls = true → P s → run c ls s = Some s' → P s'.
Proof.
  intros Hstep. induction ls as [| l ls IH]; intros s s' Hq HP Hrun;
    simpl in Hrun, Hq.
  - by injection Hrun as <-.
  - apply andb_prop in Hq as [Hl Hls].
    destruct (exec c l s) as [s1 |] eqn:Hex; [| discriminate].
    eapply IH; [exact Hls | | exact Hrun]. eapply Hstep; eauto.
Qed.

Lemma findTask_single (t : nat) (s : State) (task task' : Task) :
  pending s = [task] → findTask t s = Some task' →
  task' = task ∧ pending (dropTask t s) = [].
Proof.
  unfold findTask, dropTask. intros Hp. simpl. rewrite Hp. simpl.
  destruct (Nat.eqb (tid task) t); [| discriminate].
  intros H. by injection H as <-.
Qed.

Lemma findTask_none (t : nat) (s : State) (task' : Task) :
  pending s = [] → findTask t s = Some task' → False.
Proof. unfold findTask. by intros ->. Qed.

Lemma open_afterInitiate_spec (c : Fields) (t : nat) (x : State) :
  ∃ w anim,
    animPart true anim ∧
    pending (open_afterInitiate c t x) =
      pending x ++ [{| tid := t; stage := OpenAnimating; awaited := w |}] ∧
    isOpen (open_afterInitiate c t x) = isOpen x ∧
    dom (open_afterInitiate c t x) !! popupEl c = Some (rootElement c) ∧
    externalEvents (open_afterInitiate c t x) = externalEvents x ∧
    trace (open_afterInitiate c t x) = trace x ++ openEffects2 c x anim.
Proof.
  unfold openEffects2, cleanupPart, animPart. unfold_controller. simpl.
  destruct (animateSupported c); simpl;
    destruct (positionCleanup x) as [f |] eqn:Hf; simpl.
  - exists [length (animations x)], [Animate (length (animations x)) true].
    rewrite lookup_insert_eq, <- !app_assoc. simpl. eauto 10.
  - exists [length (animations x)], [Animate (length (animations x)) true].
    rewrite lookup_insert_eq, <- !app_assoc. simpl. eauto 10.
  - exists [], []. rewrite lookup_insert_eq, <- !app_assoc. simpl. eauto 10.
  - exists [], []. rewrite lookup_insert_eq, <- !app_assoc. simpl. eauto 10.
Qed.

Lemma open_afterAnimate_spec (x : State) :
  pending (open_afterAnimate x) = pending x ∧
  isOpen (open_afterAnimate x) = isOpen x ∧
  dom (open_afterAnimate x) = dom x ∧
  trace (open_afterAnimate x) = trace x ++ openEffects3 x.
Proof.
  unfold openEffects3. unfold_controller. simpl.
  rewrite <- !app_assoc. simpl. done.
Qed.

Lemma OpenProgress_exec (c : Fields) (s0 : State) (l : Label) (s s' : State) :
  quiet l = true → OpenProgress c s0 s → exec c l s = Some s' →
  OpenProgress c s0 s'.
Proof.
  intros Hq Hprog Hex.
  apply (quiet_cases c l s s' Hq) in Hex as [[v ->] | (t & task' & Hfind & ->)].
  - destruct Hprog; [eapply OpenAtInitiate | eapply OpenAtAnimate
                     | eapply OpenDone]; eauto.
  - destruct Hprog as [s task Hp Hst Hio Hpc Hnp Hee Htr
                      | s task anim Hp Hst Hio Hdom Hee Han Htr
                      | s anim Hp Hio Hdom Han Htr].
    + destruct (findTask_single t s task task' Hp Hfind) as [-> Hdrop].
      unfold resume. rewrite Hst.
      destruct (open_afterInitiate_spec c (tid task) (dropTask t s))
        as (w & anim & Han & Hp' & Hio' & Hdom' & Hee' & Htr').
      eapply (OpenAtAnimate c s0 _ _ anim).
      * rewrite Hp', Hdrop. reflexivity.
      * reflexivity.
      * rewrite Hio'. exact Hio.
      * exact Hdom'.
      * rewrite Hee'. exact Hee.
      * exact Han.
      * rewrite Htr'. unfold openEffects2, cleanupPart. simpl.
        rewrite Htr, Hpc, Hnp, <- app_assoc. done.
    + destruct (findTask_single t s task task' Hp Hfind) as [-> Hdrop].
      unfold resume. rewrite Hst.
      destruct (open_afterAnimate_spec (dropTask t s))
        as (Hp' & Hio' & Hdom' & Htr').
      eapply (OpenDone c s0 _ anim).
      * by rewrite Hp', Hdrop.
      * rewrite Hio'. exact Hio.
      * rewrite Hdom'. exact Hdom.
      * exact Han.
      * rewrite Htr'. unfold openEffects3, callbacksFor. simpl.
        rewrite Htr, Hee, <- !app_assoc. simpl. by rewrite <- !app_assoc.
    + destruct (findTask_none t s task' Hp Hfind).
Qed.

Lemma close_afterInitiate_spec (c : Fields) (t : nat) (k : Continuation)
    (x : State) :
  ∃ w anim,
    animPart false anim ∧
    pending (close_afterInitiate c t k x) =
      pending x ++ [{| tid := t; stage := CloseAnimating k; awaited := w |}] ∧
    isOpen (close_afterInitiate c t k x) = isOpen x ∧
    positionCleanup (close_afterInitiate c t k x) = positionCleanup x ∧
    externalEvents (close_afterInitiate c t k x) = externalEvents x ∧
    trace (close_afterInitiate c t k x) = trace x ++ anim.
Proof.
  unfold animPart. unfold_controller. destruct (animateSupported c); simpl.
  - exists [length (animations x)], [Animate (length (animations x)) false].
    eauto 10.
  - exists [], []. rewrite app_nil_r. eauto 10.
Qed.

Lemma close_afterAnimate_spec (c : Fields) (t : nat) (k : Continuation)
    (x : State) :
  isOpen (close_afterAnimate c t k x) = isOpen x ∧
  dom (close_afterAnimate c t k x) !! popupEl c = None ∧
  externalEvents (close_afterAnimate c t k x) = externalEvents x ∧
  trace (close_afterAnimate c t k x) = trace x ++ closeEffects3 c x ∧
  pending (close_afterAnimate c t k x) =
    match k with
    | Detached => pending x
    | ThenDestroy =>
        pending x ++ [{| tid := t;
                         stage := DestroyClosing (closeOutcome x);
                         awaited := [] |}]
    end.
Proof.
  unfold closeEffects3, closeOutcome. unfold_controller. simpl.
  destruct (positionCleanup x), k; simpl;
    rewrite lookup_delete_eq, <- !app_assoc; simpl; done.
Qed.

Lemma destroy_afterClose_spec (o : Outcome) (x : State) :
  pending (destroy_afterClose o x) = pending x ∧
  isOpen (destroy_afterClose o x) = isOpen x ∧
  dom (destroy_afterClose o x) = dom x ∧
  match o with
  | Resolved =>
      documentClick (destroy_afterClose o x) = false ∧
      externalEvents (destroy_afterClose o x) = [] ∧
      trace (destroy_afterClose o x) = trace x ++ destroyEffects
  | Rejected =>
      trace (destroy_afterClose o x) = trace x ++ [Settled MDestroy Rejected]
  end.
Proof.
  unfold destroyEffects. unfold_controller. destruct o; simpl;
    rewrite <- ?app_assoc; simpl; done.
Qed.

Lemma CloseProgress_exec (c : Fields) (k : Continuation) (s0 : State)
    (pre : list Effect) (l : Label) (s s' : State) :
  quiet l = true → CloseProgress c k s0 pre s → exec c l s = Some s' →
  CloseProgress c k s0 pre s'.
Proof.
  intros Hq Hprog Hex.
  apply (quiet_cases c l s s' Hq) in Hex as [[v ->] | (t & task' & Hfind & ->)].
  - destruct Hprog; [eapply CloseAtInitiate | eapply CloseAtAnimate
                     | eapply CloseDone | eapply DestroyAtClose
                     | eapply DestroyDone]; eauto.
  - destruct Hprog as [s task Hp Hst Hio Hpc Hee Htr
                      | s task anim Hp Hst Hio Hpc Hee Han Htr
                      | s anim Hk Hp Hio Hdom Han Htr
                      | s task anim Hk Hp Hst Hio Hdom Han Htr
                      | s anim Hk Hp Hio Hdom Han Hres Hrej].
    + destruct (findTask_single t s task task' Hp Hfind) as [-> Hdrop].
      unfold resume. rewrite Hst.
      destruct (close_afterInitiate_spec c (tid task) k (dropTask t s))
        as (w & anim & Han & Hp' & Hio' & Hpc' & Hee' & Htr').
      eapply (CloseAtAnimate c k s0 pre _ _ anim).
      * rewrite Hp', Hdrop. reflexivity.
      * reflexivity.
      * rewrite Hio'. exact Hio.
      * rewrite Hpc'. exact Hpc.
      * rewrite Hee'. exact Hee.
      * exact Han.
      * rewrite Htr'. simpl. rewrite Htr, <- !app_assoc. done.
    + destruct (findTask_single t s task task' Hp Hfind) as [-> Hdrop].
      unfold resume. rewrite Hst.
      destruct (close_afterAnimate_spec c (tid task) k (dropTask t s))
        as (Hio' & Hdom' & Hee' & Htr' & Hp').
      assert (trace (close_afterAnimate c (tid task) k (dropTask t s)) =
              trace s0 ++ pre ++ Enter MClose :: anim ++ closeEffects3 c s0)
        as Htrace.
      { rewrite Htr'. unfold closeEffects3. simpl.
        rewrite Htr, Hpc, <- !app_assoc. simpl. done. }
      destruct k.
      * eapply (CloseDone c Detached s0 pre _ anim); try done.
        -- by rewrite Hp', Hdrop.
        -- by rewrite Hio'.
      * eapply (DestroyAtClose c ThenDestroy s0 pre _ _ anim); try done.
        -- rewrite Hp', Hdrop. reflexivity.
        -- unfold closeOutcome. simpl. by rewrite Hpc.
        -- by rewrite Hio'.
    + destruct (findTask_none t s task' Hp Hfind).
    + destruct (findTask_single t s task task' Hp Hfind) as [-> Hdrop].
      unfold resume. rewrite Hst.
      destruct (destroy_afterClose_spec (closeOutcome s0) (dropTask t s))
        as (Hp' & Hio' & Hdom' & Hout).
      eapply (DestroyDone c k s0 pre _ anim); try done.
      * by rewrite Hp', Hdrop.
      * by rewrite Hio'.
      * by rewrite Hdom'.
      * intros Ho. rewrite Ho in Hout |- *.
        destruct Hout as (Hdc & Hee & Htr').
        repeat split; try done.
        rewrite Htr'. simpl. rewrite Htr, <- !app_assoc. simpl.
        by rewrite <- !app_assoc.
      * intros Ho. rewrite Ho in Hout |- *.
        rewrite Hout. simpl. rewrite Htr, <- !app_assoc. simpl.
        by rewrite <- !app_assoc.
    + destruct (findTask_none t s task' Hp Hfind).
Qed.

Lemma open_starts (c : Fields) (s : State) :
  pending s = [] → isOpen s = false → OpenProgress c s (open s).
Proof.
  intros Hp Hio. unfold_controller. simpl. rewrite Hio, Hp. simpl.
  by eapply OpenAtInitiate.
Qed.

Lemma close_starts (c : Fields) (k : Continuation) (s0 s : State)
    (pre : list Effect) :
  pending s = [] → isOpen s = true →
  positionCleanup s = positionCleanup s0 →
  externalEvents s = externalEvents s0 →
  trace s = trace s0 ++ pre →
  CloseProgress c k s0 pre (close k s).
Proof.
  intros Hp Hio Hpc Hee Htr. unfold_controller. simpl. rewrite Hio, Hp. simpl.
  eapply CloseAtInitiate; try done.
  simpl. by rewrite Htr, <- app_assoc.
Qed.


Lemma destroy_starts_closed (s : State) :
  pending s = [] → isOpen s = false → DestroyedAtOnce s (destroy s).
Proof.
  intros Hp Hio. unfold DestroyedAtOnce, destroyEffects. unfold_controller.
  simpl. rewrite Hio. simpl. rewrite <- !app_assoc. done.
Qed.

Lemma omap_callbacks (event : string) (cbs : list nat) :
  omap (fun e => match e with Emit ev => Some ev | _ => None end)
       (map (fun cb => Callback cb event) cbs) = [].
Proof. induction cbs; simpl; done. Qed.

Lemma emitted_open_done (c : Fields) (s0 s : State) (anim : list Effect) :
  animPart true anim →
  trace s = trace s0 ++ Enter MOpen :: openEffects2 c s0 anim ++ openEffects3 s0 →
  emitted s = emitted s0 ++ ["picker:open"].
Proof.
  intros Han Htr. unfold emitted. rewrite Htr, omap_app. f_equal.
  unfold openEffects2, openEffects3, cleanupPart.
  destruct Han as [-> | [a ->]], (positionCleanup s0); simpl;
    rewrite omap_app, omap_callbacks; done.
Qed.



Lemma isOpen_resume (c : Fields) (task : Task) (t : nat) (s : State) :
  isOpen (resume c task (dropTask t s)) = isOpen s.
Proof. unfold_controller. crunch; done. Qed.

Lemma quiet_isOpen (c : Fields) (l : Label) (s s' : State) :
  quiet l = true → exec c l s = Some s' → isOpen s' = isOpen s.
Proof.
  intros Hq Hex.
  apply (quiet_cases c l s s' Hq) in Hex as [[v ->] | (t & task & _ & ->)].
  - done.
  - apply isOpen_resume.
Qed.

Lemma quiet_run_isOpen (c : Fields) (ls : list Label) (s s' : State) :
  forallb quiet ls = true → run c ls s = Some s' → isOpen s' = isOpen s.
Proof.
  intros Hq Hrun.
  eapply (quiet_run_invariant c (fun x => isOpen x = isOpen s));
    [| exact Hq | reflexivity | exact Hrun].
  intros l s1 s2 Hl H1 Hex. by rewrite (quiet_isOpen c l s1 s2 Hl Hex).
Qed.

(** What resuming a suspended call adds to the record and to the suspended
    calls. *)
Lemma resume_spec (c : Fields) (task : Task) (t : nat) (s : State) :
  ∃ new rest,
    trace (resume c task (dropTask t s)) = trace s ++ new ∧
    pending (resume c task (dropTask t s)) =
      List.filter (fun x => negb (Nat.eqb (tid x) t)) (pending s) ++ rest ∧
    match stage task with
    | OpenInitiated =>
        In (AppendChild (rootElement c) (popupEl c)) new ∧
        ∃ w, rest = [{| tid := tid task; stage := OpenAnimating; awaited := w |}]
    | OpenAnimating =>
        In (Emit "picker:open") new ∧ In (Settled MOpen Resolved) new ∧ rest = []
    | CloseInitiated k =>
        ∃ w, rest = [{| tid := tid task; stage := CloseAnimating k; awaited := w |}]
    | CloseAnimating k =>
        new = closeEffects3 c s ∧
        dom (resume c task (dropTask t s)) !! popupEl c = None ∧
        rest = match k with
               | Detached => []
               | ThenDestroy =>
                   [{| tid := tid task; stage := DestroyClosing (closeOutcome s);
                       awaited := [] |}]
               end
    | DestroyClosing o =>
        rest = [] ∧
        match o with
        | Resolved =>
            new = destroyEffects ∧
            documentClick (resume c task (dropTask t s)) = false ∧
            externalEvents (resume c task (dropTask t s)) = []
        | Rejected => new = [Settled MDestroy Rejected]
        end
    end.
Proof.
  unfold resume. destruct (stage task) as [| | k | k | o].
  - destruct (open_afterInitiate_spec c (tid task) (dropTask t s))
      as (w & anim & _ & Hp & _ & _ & _ & Htr).
    eexists _, _. split; [exact Htr |]. split; [exact Hp |].
    split; [by left | by exists w].
  - destruct (open_afterAnimate_spec (dropTask t s)) as (Hp & _ & _ & Htr).
    eexists _, []. split; [exact Htr |]. rewrite app_nil_r.
    split; [exact Hp |]. unfold openEffects3.
    split; [| split; [| done]].
    + simpl. tauto.
    + apply in_or_app. right. apply in_or_app. right. by left.
  - destruct (close_afterInitiate_spec c (tid task) k (dropTask t s))
      as (w & anim & _ & Hp & _ & _ & _ & Htr).
    eexists _, _. split; [exact Htr |]. split; [exact Hp |]. by exists w.
  - destruct (close_afterAnimate_spec c (tid task) k (dropTask t s))
      as (_ & Hdom & _ & Htr & Hp).
    eexists _, _. split; [exact Htr |].
    split; [| split; [reflexivity | split; [exact Hdom | reflexivity]]].
    rewrite Hp. destruct k; [by rewrite app_nil_r | reflexivity].
  - destruct (destroy_afterClose_spec o (dropTask t s)) as (Hp & _ & _ & Hout).
    destruct o.
    + destruct Hout as (Hdc & Hee & Htr). exists destroyEffects, [].
      rewrite app_nil_r. split; [exact Htr |]. split; [exact Hp |]. by repeat split.
    + exists [Settled MDestroy Rejected], [].
      rewrite app_nil_r. split; [exact Hout |]. split; [exact Hp |]. by split.
Qed.


Lemma run_trace_grows (c : Fields) (ls : list Label) (s s' : State) :
  forallb quiet ls = true → run c ls s = Some s' →
  ∃ l, trace s' = trace s ++ l.
Proof.
  intros Hq Hrun.
  eapply (quiet_run_invariant c (fun x => ∃ l, trace x = trace s ++ l));
    [| exact Hq | by exists []; rewrite app_nil_r | exact Hrun].
  intros l s1 s2 Hl [l1 H1] Hex.
  apply (quiet_cases c l s1 s2 Hl) in Hex as [[v ->] | (t & task & _ & ->)].
  - by exists l1.
  - destruct (resume_spec c task t s1) as (new & rest & Htr & _).
    exists (l1 ++ new). by rewrite Htr, H1, <- app_assoc.
Qed.

(** ** More about the record of effects and about steps *)

Lemma in_callbacks (e : Effect) (event : string) (cbs : list nat) :
  In e (map (fun cb => Callback cb event) cbs) → ∃ cb, e = Callback cb event.
Proof. intros H. apply in_map_iff in H as (cb & <- & _). by exists cb. Qed.

(** An effect said to be among effects none of which it is. *)
Ltac no_such_effect :=
  repeat match goal with
         | H : In _ (_ ++ _) |- _ => apply in_app_or in H as [H | H]
         | H : In _ (_ :: _) |- _ => destruct H as [H | H]
         | H : In _ [] |- _ => destruct H
         | H : _ ∨ _ |- _ => destruct H as [H | H]
         | H : False |- _ => destruct H
         | H : In _ (map _ _) |- _ => apply in_callbacks in H as [? H]
         | H : @eq Effect _ _ |- _ => discriminate H
         end.

Lemma exec_trace_grows (c : Fields) (l : Label) (s s' : State) :
  exec c l s = Some s' → ∃ new, trace s' = trace s ++ new.
Proof.
  intros Hex.
  apply (exec_preserves c (fun x => ∃ new, trace x = trace s ++ new))
    with (l := l) (s := s);
    [| | | | | | | by exists []; rewrite app_nil_r | exact Hex]; clear.
  - intros e x [new H]. exists (new ++ [e]). simpl. by rewrite H, <- app_assoc.
  - intros x [new H]. rewrite trace_open, H, <- app_assoc. eauto.
  - intros k x [new H]. rewrite trace_close, H, <- app_assoc. eauto.
  - intros x [new H]. unfold_controller. simpl. rewrite H, <- !app_assoc. eauto.
  - intros e cb x [new H]. unfold_controller. simpl. rewrite H, <- !app_assoc. eauto.
  - intros v x H. exact H.
  - intros t task x _ _ [new H].
    destruct (resume_spec c task t x) as (new' & _ & Htr & _).
    rewrite Htr, H, <- app_assoc. eauto.
Qed.

Lemma effectsSince_trans (s s1 s2 : State) (l1 l2 : list Effect) :
  trace s1 = trace s ++ l1 → trace s2 = trace s1 ++ l2 →
  effectsSince s s2 = effectsSince s s1 ++ effectsSince s1 s2.
Proof.
  intros H1 H2. rewrite (effectsSince_app _ _ _ H1), (effectsSince_app _ _ _ H2).
  apply effectsSince_app. by rewrite H2, H1, <- app_assoc.
Qed.

Lemma run_trace_splits (c : Fields) (l : Label) (ls : list Label)
    (s s1 s2 : State) :
  exec c l s = Some s1 → run c ls s1 = Some s2 →
  effectsSince s s2 = effectsSince s s1 ++ effectsSince s1 s2.
Proof.
  intros Hex Hrun.
  destruct (exec_trace_grows c l s s1 Hex) as [l1 H1].
  assert (∃ l2, trace s2 = trace s1 ++ l2) as [l2 H2].
  { eapply (run_invariant c (fun x => ∃ l2, trace x = trace s1 ++ l2));
      [| by exists []; rewrite app_nil_r | exact Hrun].
    intros l0 x x' [l2 H2] Hx. destruct (exec_trace_grows c l0 x x' Hx) as [l3 H3].
    exists (l2 ++ l3). by rewrite H3, H2, <- app_assoc. }
  by apply (effectsSince_trans s s1 s2 l1 l2).
Qed.

(** Like [exec_preserves], for a property that depends on what is recorded,
    on how animations move on, on [close()] being called by [destroy()] only
    on an open picker, or on which suspended call is resumed ([R]). *)
Lemma exec_preserves_when (c : Fields) (P : State → Prop)
    (R : nat → State → Prop) :
  (∀ m s, P s → P (effect (Enter m) s)) →
  (∀ s, P s → P (open s)) →
  (∀ k s, P s → (isOpen s = true ∨ k = Detached) → P (close k s)) →
  (∀ s, P s → P (destroy_rest s)) →
  (∀ e cb s, P s → P (on e cb s)) →
  (∀ name s, P s →
     P (set_animations
          (animations s ++ [{| animationName := name; playState := Running |}]) s)) →
  (∀ a anim s, animations s !! a = Some anim → isRunning anim = true → P s →
     P (set_animations (<[a := finish anim]> (animations s)) s)) →
  (∀ t task s, findTask t s = Some task → ready s task = true → R t s →
               P s → P (resume c task (dropTask t s))) →
  ∀ l s s', P s → (∀ t, l = Resume t → R t s) → exec c l s = Some s' → P s'.
Proof.
  intros Heff Hopen Hclose Hrest Hon Hstart Hfin Hres l s s' HP HR Hex.
  destruct l; simpl in Hex.
  - injection Hex as <-. by apply Hopen.
  - injection Hex as <-. apply Hclose; [done | by right].
  - injection Hex as <-. unfold toggle; simpl.
    destruct (isOpen s); [apply Hclose; [| by right] | apply Hopen]; by apply Heff.
  - injection Hex as <-. unfold destroy; simpl.
    destruct (isOpen s) eqn:Hio; [apply Hclose; [| by left] | apply Hrest];
      by apply Heff.
  - injection Hex as <-. by apply Hon.
  - injection Hex as <-. unfold onDocumentClick.
    destruct (documentClick s); [| done].
    destruct (_ && _); [apply Hclose; [done | by right] | done].
  - injection Hex as <-. unfold handleKeydown.
    destruct (String.eqb _ _); [apply Hclose; [done | by right] | done].
  - injection Hex as <-. unfold onEmojiSelect.
    destruct (autoHide c); [apply Hclose; [done | by right] | done].
  - injection Hex as <-. by apply Hstart.
  - destruct (animations s !! a) as [anim |] eqn:Ha; [| discriminate].
    destruct (isRunning anim) eqn:Hr; [| discriminate].
    injection Hex as <-. by apply (Hfin a anim).
  - destruct (findTask t s) as [task |] eqn:Hfind; [| discriminate].
    destruct (ready s task) eqn:Hready; [| discriminate].
    injection Hex as <-. apply Hres; try done. by apply HR.
Qed.

(** What [open()] and [close()] leave behind. *)
Lemma open_fields (s : State) :
  isOpen (open s) = true ∧ positionCleanup (open s) = positionCleanup s ∧
  animations (open s) = animations s ∧
  pending (open s) =
    pending s ++ (if isOpen s then []
                  else [{| tid := nextTask s; stage := OpenInitiated;
                           awaited := getRunningAnimations s |}]).
Proof.
  unfold_controller. simpl. destruct (isOpen s) eqn:Hio; simpl;
    rewrite ?app_nil_r; done.
Qed.

Lemma close_fields (k : Continuation) (s : State) :
  isOpen s = true ∨ k = Detached →
  isOpen (close k s) = false ∧ positionCleanup (close k s) = positionCleanup s ∧
  animations (close k s) = animations s ∧
  pending (close k s) =
    pending s ++ (if isOpen s
                  then [{| tid := nextTask s; stage := CloseInitiated k;
                           awaited := getRunningAnimations s |}]
                  else []).
Proof.
  intros Hk. unfold_controller. simpl. destruct (isOpen s) eqn:Hio; simpl.
  - done.
  - destruct Hk as [? | ->]; [done |]. simpl. by rewrite app_nil_r.
Qed.










(** The popup element need not be in the document when [open()] has
    resolved with [isOpen] true: after a rapid open, close, open the second
    [open()] resolves with [isOpen] true and the popup element out of the
    document, removed by the [close()] that was called before it but
    completed after it had appended the element. *)
Example open_interfered_with :
  ∃ s, runInOrder demo rapidToggleToEnd (initial demoDocument) = Some s ∧
       last (trace s) = Some (Settled MOpen Resolved) ∧
       pending s = [] ∧
       isOpen s = true ∧ dom s !! popupEl demo = None ∧ positioned s = ∅.
Proof.
  exists (after demo rapidToggleToEnd (initial demoDocument)).
  vm_compute. repeat split; reflexivity.
Qed.




Ltac read_effects :=
  unfold effectsSince; unfold_controller; crunch;
  rewrite <- ?app_assoc; rewrite ?drop_app_length, ?drop_all; simpl;
  try tauto; try (intuition discriminate).










(** ** The calls do resolve

    Nothing in the controller decides when an animation finishes; once the
    animations a suspended call waits for have finished, it can go on. *)

Lemma finish_one (c : Fields) (s : State) (a : nat) :
  runningAt s a = true →
  ∃ v, exec c (AnimationFinished a) s = Some (set_animations v s) ∧
       finishedAt (set_animations v s) a = true ∧
       advances s (set_animations v s).
Proof.
  unfold advances, runningAt, finishedAt. simpl.
  destruct (animations s !! a) as [x |] eqn:Ha; [| discriminate].
  intros Hr. rewrite Hr. eexists. split; [reflexivity |]. simpl.
  pose proof (lookup_lt_Some _ _ _ Ha) as Hlt. split.
  - by rewrite list_lookup_insert_eq.
  - intros b. destruct (decide (a = b)) as [<- | Hne].
    + rewrite list_lookup_insert_eq by done. simpl. split; [done |]. by right.
    + rewrite list_lookup_insert_ne by done. split; [done |]. by left.
Qed.

Lemma finish_awaited (c : Fields) (w : list nat) (s : State) :
  (∀ a, In a w → runningAt s a = true ∨ finishedAt s a = true) →
  ∃ ls v,
    forallb quiet ls = true ∧
    run c ls s = Some (set_animations v s) ∧
    forallb (finishedAt (set_animations v s)) w = true ∧
    advances s (set_animations v s).
Proof.
  induction w as [| a w IH]; intros Hw.
  - exists [], (animations s).
    assert (set_animations (animations s) s = s) as -> by (by destruct s).
    split; [done |]. split; [done |]. split; [done |].
    intros b. split; [done | by left].
  - destruct IH as (ls & v & Hq & Hrun & Hall & Hadv).
    { intros b Hb. apply Hw. by right. }
    destruct (finishedAt (set_animations v s) a) eqn:Hfa.
    + exists ls, v. split; [done |]. split; [done |]. split; [| done].
      simpl. by rewrite Hfa, Hall.
    + assert (runningAt (set_animations v s) a = true) as Hra.
      { destruct (Hw a (or_introl eq_refl)) as [Hr | Hf].
        - apply Hadv in Hr as [Hr | Hf]; [done | congruence].
        - apply Hadv in Hf. congruence. }
      destruct (finish_one c (set_animations v s) a Hra)
        as (v' & Hex & Hfa' & Hadv').
      exists (ls ++ [AnimationFinished a]), v'.
      split; [by rewrite forallb_app, Hq |].
      split; [rewrite run_app, Hrun; unfold run; by rewrite Hex |].
      split.
      * change (set_animations v' s)
          with (set_animations v' (set_animations v s)).
        cbn [forallb]. rewrite Hfa'. cbn [andb].
        apply forallb_forall. intros b Hb. apply Hadv'.
        rewrite forallb_forall in Hall. by apply Hall.
      * intros b. split.
        -- intros Hb. apply Hadv', Hadv, Hb.
        -- intros Hb. apply Hadv in Hb as [Hb | Hb].
           ++ by apply Hadv'.
           ++ right. by apply Hadv'.
Qed.

(** A suspended call whose animations are running or have finished gets its
    turn: the animations finish, it is resumed. *)
Lemma can_resume (c : Fields) (s : State) (task : Task) :
  findTask (tid task) s = Some task →
  (∀ a, In a (awaited task) → runningAt s a = true ∨ finishedAt s a = true) →
  ∃ ls v,
    forallb quiet ls = true ∧
    run c (ls ++ [Resume (tid task)]) s =
      Some (resume c task (dropTask (tid task) (set_animations v s))).
Proof.
  intros Hfind Hw.
  destruct (finish_awaited c (awaited task) s Hw) as (ls & v & Hq & Hrun & Hall & _).
  exists ls, v. split; [done |].
  rewrite run_app, Hrun. simpl.
  replace (findTask (tid task) (set_animations v s)) with (Some task) by done.
  unfold ready. by rewrite Hall.
Qed.

Lemma runningAt_new (anims : list Animation) (x : Animation) (s : State) :
  animations s = anims ++ [x] → isRunning x = true →
  runningAt s (length anims) = true.
Proof.
  unfold runningAt. intros -> Hx.
  by rewrite lookup_app_r, Nat.sub_diag by lia.
Qed.

(** What is suspended after the only suspended call was resumed. *)
Lemma resume_single (c : Fields) (task : Task) (s : State) :
  pending s = [task] →
  let s' := resume c task (dropTask (tid task) s) in
  match stage task with
  | OpenInitiated =>
      ∃ w, pending s' = [{| tid := tid task; stage := OpenAnimating; awaited := w |}] ∧
           ∀ a, In a w → runningAt s' a = true
  | CloseInitiated k =>
      ∃ w, pending s' = [{| tid := tid task; stage := CloseAnimating k; awaited := w |}] ∧
           ∀ a, In a w → runningAt s' a = true
  | CloseAnimating ThenDestroy =>
      pending s' = [{| tid := tid task; stage := DestroyClosing (closeOutcome s);
                       awaited := [] |}]
  | _ => pending s' = []
  end.
Proof.
  intros Hp. unfold closeOutcome.
  destruct (stage task) as [| | k | k | o] eqn:Hst; unfold resume; rewrite Hst;
    unfold_controller; simpl; rewrite Hp; simpl; rewrite Nat.eqb_refl; simpl.
  - destruct (animateSupported c); simpl; destruct (positionCleanup s); simpl;
      eexists; (split; [reflexivity |]); intros a Ha; try (by destruct Ha);
      destruct Ha as [<- | []]; by eapply runningAt_new.
  - done.
  - destruct (animateSupported c); simpl;
      eexists; (split; [reflexivity |]); intros a Ha; try (by destruct Ha);
      destruct Ha as [<- | []]; by eapply runningAt_new.
  - destruct (positionCleanup s), k; done.
  - destruct o; done.
Qed.

Lemma findTask_only (s : State) (task : Task) :
  pending s = [task] → findTask (tid task) s = Some task.
Proof. unfold findTask. intros ->. simpl. by rewrite Nat.eqb_refl. Qed.

(** The only suspended call gets its turn. *)
Lemma resume_only (c : Fields) (s : State) (task : Task) :
  pending s = [task] →
  (∀ a, In a (awaited task) → runningAt s a = true) →
  ∃ ls s1,
    forallb quiet ls = true ∧ pending s1 = [task] ∧
    nextTask s1 = nextTask s ∧ positionCleanup s1 = positionCleanup s ∧
    run c (ls ++ [Resume (tid task)]) s =
      Some (resume c task (dropTask (tid task) s1)).
Proof.
  intros Hp Hw.
  destruct (can_resume c s task (findTask_only s task Hp)) as (ls & v & Hq & Hrun).
  { intros a Ha. left. by apply Hw. }
  exists ls, (set_animations v s). by repeat split.
Qed.

(** [open()] on a closed picker, with no other call under way, resolves once
    the animations it waits for have finished. *)
Lemma open_resolves (c : Fields) (s : State) :
  pending s = [] → isOpen s = false →
  ∃ ls s',
    forallb quiet ls = true ∧ run c ls (open s) = Some s' ∧
    pending s' = [] ∧
    In (Settled MOpen Resolved) (effectsSince s s').
Proof.
  intros Hp Hio.
  set (task1 := {| tid := nextTask s; stage := OpenInitiated;
                   awaited := getRunningAnimations s |}).
  assert (pending (open s) = [task1]) as Hp1.
  { unfold_controller. simpl. rewrite Hio, Hp. reflexivity. }
  destruct (resume_only c (open s) task1 Hp1) as (ls1 & s1 & Hq1 & Hp1' & _ & _ & Hrun1).
  { intros a Ha. apply list_elem_of_In, elem_of_getRunningAnimations in Ha.
    unfold_controller. simpl. rewrite Hio. exact Ha. }
  pose proof (resume_single c task1 s1 Hp1') as (w & Hp2 & Hw2).
  set (s2 := resume c task1 (dropTask (tid task1) s1)) in *.
  set (task2 := {| tid := tid task1; stage := OpenAnimating; awaited := w |}) in *.
  destruct (resume_only c s2 task2 Hp2 Hw2) as (ls2 & s2' & Hq2 & Hp2' & _ & _ & Hrun2).
  pose proof (resume_single c task2 s2' Hp2') as Hp3.
  set (s3 := resume c task2 (dropTask (tid task2) s2')) in *.
  change (pending s3 = []) in Hp3.
  exists ((ls1 ++ [Resume (tid task1)]) ++ (ls2 ++ [Resume (nextTask s)])), s3.
  assert (forallb quiet ((ls1 ++ [Resume (tid task1)]) ++ ls2 ++ [Resume (nextTask s)])
          = true) as Hq.
  { rewrite !forallb_app, Hq1, Hq2. reflexivity. }
  assert (run c ((ls1 ++ [Resume (tid task1)]) ++ ls2 ++ [Resume (nextTask s)]) (open s)
          = Some s3) as Hrun.
  { rewrite run_app, Hrun1. exact Hrun2. }
  split; [exact Hq |]. split; [exact Hrun |]. split; [exact Hp3 |].
  assert (OpenProgress c s s3) as Hprog.
  { eapply (quiet_run_invariant c (OpenProgress c s)); [| exact Hq | | exact Hrun].
    - intros l0 s0 s0' Hl. by apply OpenProgress_exec.
    - by apply open_starts. }
  clearbody s3.
  destruct Hprog as [s3 task0 Hp' | s3 task0 anim Hp' | s3 anim Hp' Hio' Hdom Han Htr0];
    try (rewrite Hp3 in Hp'; discriminate).
  rewrite (effectsSince_app _ _ _ Htr0). right.
  apply in_or_app. right. unfold openEffects3.
  apply in_or_app. right. apply in_or_app. right. by left.
Qed.

(** [close()] on an open picker, with no other call under way, resolves once
    the animations it waits for have finished, provided a positioning was
    set up (as [open()] does). *)
Lemma close_resolves (c : Fields) (s : State) :
  pending s = [] → isOpen s = true → positionCleanup s ≠ None →
  ∃ ls s',
    forallb quiet ls = true ∧ run c ls (close Detached s) = Some s' ∧
    pending s' = [] ∧
    In (Settled MClose Resolved) (effectsSince s s').
Proof.
  intros Hp Hio Hpc.
  set (task1 := {| tid := nextTask s; stage := CloseInitiated Detached;
                   awaited := getRunningAnimations s |}).
  assert (pending (close Detached s) = [task1]) as Hp1.
  { unfold_controller. simpl. rewrite Hio, Hp. reflexivity. }
  destruct (resume_only c (close Detached s) task1 Hp1)
    as (ls1 & s1 & Hq1 & Hp1' & _ & _ & Hrun1).
  { intros a Ha. apply list_elem_of_In, elem_of_getRunningAnimations in Ha.
    unfold_controller. simpl. rewrite Hio. exact Ha. }
  pose proof (resume_single c task1 s1 Hp1') as (w & Hp2 & Hw2).
  set (s2 := resume c task1 (dropTask (tid task1) s1)) in *.
  set (task2 := {| tid := tid task1; stage := CloseAnimating Detached;
                   awaited := w |}) in *.
  destruct (resume_only c s2 task2 Hp2 Hw2) as (ls2 & s2' & Hq2 & Hp2' & _ & _ & Hrun2).
  pose proof (resume_single c task2 s2' Hp2') as Hp3.
  set (s3 := resume c task2 (dropTask (tid task2) s2')) in *.
  change (pending s3 = []) in Hp3.
  exists ((ls1 ++ [Resume (tid task1)]) ++ (ls2 ++ [Resume (nextTask s)])), s3.
  assert (forallb quiet ((ls1 ++ [Resume (tid task1)]) ++ ls2 ++ [Resume (nextTask s)])
          = true) as Hq.
  { rewrite !forallb_app, Hq1, Hq2. reflexivity. }
  assert (run c ((ls1 ++ [Resume (tid task1)]) ++ ls2 ++ [Resume (nextTask s)])
              (close Detached s) = Some s3) as Hrun.
  { rewrite run_app, Hrun1. exact Hrun2. }
  split; [exact Hq |]. split; [exact Hrun |]. split; [exact Hp3 |].
  assert (CloseProgress c Detached s [] s3) as Hprog.
  { eapply (quiet_run_invariant c (CloseProgress c Detached s []));
      [| exact Hq | | exact Hrun].
    - intros l0 s0 s0' Hl. by apply CloseProgress_exec.
    - apply close_starts; try done. by rewrite app_nil_r. }
  clearbody s3.
  destruct Hprog as [s3 task0 Hp' | s3 task0 anim Hp'
                    | s3 anim Hk Hp' Hio' Hdom Han Htr0
                    | s3 task0 anim Hk | s3 anim Hk];
    try (rewrite Hp3 in Hp'; discriminate); try discriminate.
  rewrite (effectsSince_app _ _ _ Htr0). simpl. right.
  apply in_or_app. right. unfold closeEffects3.
  destruct (positionCleanup s); [| done]. simpl. tauto.
Qed.

(** [destroy()], with no other call under way, resolves once the animations
    [close()] waits for have finished. *)
Lemma destroy_resolves (c : Fields) (s : State) :
  pending s = [] → (isOpen s = true → positionCleanup s ≠ None) →
  ∃ ls s',
    forallb quiet ls = true ∧ run c ls (destroy s) = Some s' ∧
    pending s' = [] ∧
    In (Settled MDestroy Resolved) (effectsSince s s').
Proof.
  intros Hp Hpc. destruct (isOpen s) eqn:Hio.
  - specialize (Hpc eq_refl).
    set (task1 := {| tid := nextTask s; stage := CloseInitiated ThenDestroy;
                     awaited := getRunningAnimations s |}).
    assert (pending (destroy s) = [task1]) as Hp1.
    { unfold_controller. simpl. rewrite Hio, Hp. reflexivity. }
    destruct (resume_only c (destroy s) task1 Hp1)
      as (ls1 & s1 & Hq1 & Hp1' & _ & _ & Hrun1).
    { intros a Ha. apply list_elem_of_In, elem_of_getRunningAnimations in Ha.
      unfold_controller. simpl. rewrite Hio. exact Ha. }
    pose proof (resume_single c task1 s1 Hp1') as (w & Hp2 & Hw2).
    set (s2 := resume c task1 (dropTask (tid task1) s1)) in *.
    set (task2 := {| tid := tid task1; stage := CloseAnimating ThenDestroy;
                     awaited := w |}) in *.
    destruct (resume_only c s2 task2 Hp2 Hw2)
      as (ls2 & s2' & Hq2 & Hp2' & _ & _ & Hrun2).
    pose proof (resume_single c task2 s2' Hp2') as Hp3.
    set (s3 := resume c task2 (dropTask (tid task2) s2')) in *.
    set (task3 := {| tid := tid task2; stage := DestroyClosing (closeOutcome s2');
                     awaited := [] |}) in *.
    change (pending s3 = [task3]) in Hp3.
    destruct (resume_only c s3 task3 Hp3) as (ls3 & s3' & Hq3 & Hp3' & _ & _ & Hrun3).
    { intros a []. }
    pose proof (resume_single c task3 s3' Hp3') as Hp4.
    set (s4 := resume c task3 (dropTask (tid task3) s3')) in *.
    change (pending s4 = []) in Hp4.
    set (ls := (ls1 ++ [Resume (tid task1)]) ++ (ls2 ++ [Resume (tid task2)])
               ++ (ls3 ++ [Resume (tid task3)])).
    exists ls, s4.
    assert (forallb quiet ls = true) as Hq.
    { subst ls. rewrite !forallb_app, Hq1, Hq2, Hq3. reflexivity. }
    assert (run c ls (destroy s) = Some s4) as Hrun.
    { subst ls. rewrite run_app, Hrun1, run_app, Hrun2. exact Hrun3. }
    split; [exact Hq |]. split; [exact Hrun |]. split; [exact Hp4 |].
    assert (CloseProgress c ThenDestroy s [Enter MDestroy] s4) as Hprog.
    { eapply (quiet_run_invariant c (CloseProgress c ThenDestroy s [Enter MDestroy]));
        [| exact Hq | | exact Hrun].
      - intros l0 s0 s0' Hl. by apply CloseProgress_exec.
      - unfold destroy. simpl. rewrite Hio. by apply close_starts. }
    clearbody s4.
    destruct Hprog as [s4 task0 Hp' | s4 task0 anim Hp'
                      | s4 anim Hk | s4 task0 anim Hk Hp'
                      | s4 anim Hk Hp' Hio' Hdom Han Hok Hrej];
      try (rewrite Hp4 in Hp'; discriminate); try discriminate.
    assert (closeOutcome s = Resolved) as Ho.
    { unfold closeOutcome. by destruct (positionCleanup s). }
    destruct (Hok Ho) as (_ & _ & Htr).
    rewrite (effectsSince_app _ _ _ Htr).
    apply in_or_app. right. right.
    apply in_or_app. right. apply in_or_app. right.
    unfold destroyEffects. simpl. tauto.
  - exists [], (destroy s). split; [done |]. split; [done |].
    destruct (destroy_starts_closed s Hp Hio) as (Hp' & _ & _ & _ & Htr).
    split; [done |]. rewrite (effectsSince_app _ _ _ Htr).
    unfold destroyEffects. simpl. tauto.
Qed.


(** ** The constructor's options *)

(** X3. The controller closes the picker on 'emoji:select' exactly when the
    [autoHide] option is not false (left out, it counts as true): then the
    selection makes it call [close()], after which [isOpen] is false; with
    [autoHide: false] a selection changes nothing. *)
Theorem emojiSelect_closes_iff_autoHide (options : PopupOptions)
    (body created : nat) (animate : bool) (s : State) :
  let c := construct options body created animate in
  (In (Enter MClose) (effectsSince s (onEmojiSelect c s))
     ↔ opt_autoHide options ≠ Some false) ∧
  (opt_autoHide options ≠ Some false → isOpen (onEmojiSelect c s) = false) ∧
  (opt_autoHide options = Some false → onEmojiSelect c s = s).
Proof.
  intros c. unfold onEmojiSelect, c, construct. simpl.
  destruct (opt_autoHide options) as [[|] |]; simpl.
  - rewrite (effectsSince_app _ _ _ (trace_close Detached s)).
    split; [split; [done | intros _; by left] |].
    split; [intros _; apply isOpen_close | done].
  - rewrite (effectsSince_app s s []) by (by rewrite app_nil_r).
    split; [split; [intros [] | congruence] |]. split; [congruence | done].
  - rewrite (effectsSince_app _ _ _ (trace_close Detached s)).
    split; [split; [done | intros _; by left] |].
    split; [intros _; apply isOpen_close | done].
Qed.

(** X4. The part of [open()] after its first [await] appends the popup
    element to the [rootElement] option if the constructor was given one,
    and to [document.body] otherwise; the popup element is then a child of
    that element. *)
Theorem popup_attached_to_rootElement_or_body (options : PopupOptions)
    (body created : nat) (animate : bool) (s s' : State) (t : nat) (task : Task) :
  let c := construct options body created animate in
  findTask t s = Some task → stage task = OpenInitiated →
  exec c (Resume t) s = Some s' →
  In (AppendChild (default body (opt_rootElement options)) created)
     (effectsSince s s') ∧
  dom s' !! created = Some (default body (opt_rootElement options)).
Proof.
  intros c Hfind Hst Hex.
  apply (exec_resume c t task) in Hex as [_ ->]; [| done].
  unfold resume. rewrite Hst.
  destruct (open_afterInitiate_spec c (tid task) (dropTask t s))
    as (w & anim & _ & _ & _ & Hdom & _ & Htr).
  split; [| exact Hdom].
  rewrite (effectsSince_app s _ _ Htr). by left.
Qed.

Lemma popup_attached_to_rootElement_or_body_witness :
  let viaBody := construct {| opt_rootElement := None; opt_autoHide := None;
                              opt_triggerElement := None |} 1 2 true in
  let viaRoot := construct {| opt_rootElement := Some 7; opt_autoHide := None;
                              opt_triggerElement := None |} 1 2 true in
  dom (after viaBody [CallOpen; Resume 0] (initial demoDocument)) !! 2 = Some 1 ∧
  dom (after viaRoot [CallOpen; Resume 0] (initial demoDocument)) !! 2 = Some 7.
Proof.
  intros viaBody viaRoot. split.
  - refine (proj2 (popup_attached_to_rootElement_or_body
                     {| opt_rootElement := None; opt_autoHide := None;
                        opt_triggerElement := None |} 1 2 true
                     (open (initial demoDocument)) _ 0
                     {| tid := 0; stage := OpenInitiated; awaited := [] |}
                     _ _ _)); reflexivity.
  - refine (proj2 (popup_attached_to_rootElement_or_body
                     {| opt_rootElement := Some 7; opt_autoHide := None;
                        opt_triggerElement := None |} 1 2 true
                     (open (initial demoDocument)) _ 0
                     {| tid := 0; stage := OpenInitiated; awaited := [] |}
                     _ _ _)); reflexivity.
Defined.

(** ** What the parts of the calls do *)

(** X5. The controller emits an external event in one place only: the last
    part of [open()], which emits 'picker:open'. No call being made, no
    listener, no other resumed part emits anything; [close()] and
    [destroy()] announce nothing. *)
Theorem only_open_emits (c : Fields) (l : Label) (s s' : State) (ev : string) :
  exec c l s = Some s' →
  In (Emit ev) (effectsSince s s') →
  ev = "picker:open" ∧
  ∃ t task, l = Resume t ∧ findTask t s = Some task ∧ stage task = OpenAnimating.
Proof.
  intros Hex. destruct l; simpl in Hex.
  1-9: injection Hex as <-; read_effects.
  - destruct (animations s !! a) as [anim |]; [| discriminate].
    destruct (isRunning anim); [| discriminate].
    injection Hex as <-. read_effects.
  - destruct (findTask t s) as [task |] eqn:Hfind; [| discriminate].
    destruct (ready s task) eqn:Hready; [| discriminate].
    injection Hex as <-.
    destruct (stage task) eqn:Hst.
    2: { intros Hin. split; [| by exists t, task].
         unfold resume in Hin. rewrite Hst in Hin.
         destruct (open_afterAnimate_spec (dropTask t s)) as (_ & _ & _ & Htr).
         rewrite (effectsSince_app s _ _ Htr) in Hin. unfold openEffects3 in Hin.
         no_such_effect. congruence. }
    all: unfold resume; rewrite Hst; clear; read_effects.
    all: intros Hin; no_such_effect.
Qed.

Lemma only_open_emits_witness :
  let s := after demo [CallOpen; Resume 0; AnimationFinished 0]
                 (initial demoDocument) in
  ∃ t task, Resume 0 = Resume t ∧ findTask t s = Some task ∧
            stage task = OpenAnimating.
Proof.
  intros s.
  refine (proj2 (only_open_emits demo (Resume 0) s (after demo [Resume 0] s)
                   "picker:open" _ _)).
  - vm_compute. reflexivity.
  - vm_compute. tauto.
Defined.

(** X6. The parts of [open()] and [close()] that run after an [await] never
    look at [isOpen] again: resuming a suspended call does the same whatever
    [isOpen] is by then, and leaves it as it is. So the last part of an
    [open()] emits 'picker:open' and resolves also when a [close()] has set
    [isOpen] to false meanwhile, and the last part of a [close()] removes
    the popup element also when an [open()] has set it to true meanwhile. *)
Theorem resumed_parts_ignore_isOpen (c : Fields) (task : Task) (t : nat)
    (s : State) :
  let s' := resume c task (dropTask t s) in
  (∀ b, resume c task (dropTask t (set_isOpen b s)) = set_isOpen b s') ∧
  isOpen s' = isOpen s ∧
  (stage task = OpenAnimating →
   In (Emit "picker:open") (effectsSince s s') ∧
   In (Settled MOpen Resolved) (effectsSince s s')) ∧
  (∀ k, stage task = CloseAnimating k →
   In (RemoveChild (popupEl c)) (effectsSince s s') ∧
   dom s' !! popupEl c = None).
Proof.
  intros s'. split; [| split; [| split]].
  - intros b. subst s'. unfold_controller. crunch; reflexivity.
  - apply isOpen_resume.
  - intros Hst.
    destruct (resume_spec c task t s) as (new & rest & Htr & _ & Hstage).
    rewrite Hst in Hstage. destruct Hstage as (Hemit & Hres & _).
    subst s'. by rewrite (effectsSince_app s _ _ Htr).
  - intros k Hst.
    destruct (resume_spec c task t s) as (new & rest & Htr & _ & Hstage).
    rewrite Hst in Hstage. destruct Hstage as (Hnew & Hdom & _).
    split; [| exact Hdom].
    subst s'. rewrite (effectsSince_app s _ _ Htr), Hnew. by left.
Qed.

(** X7. A resumed call starts an animation exactly when it is the part of
    [open()] or [close()] after the first [await] and the picker element has
    [animate]: then it adds one running animation, 'show-picker' for
    [open()] and 'hide-picker' for [close()], and the call next waits for
    that animation alone. Without [animate], and in every other part,
    no animation is added and the call waits for nothing. *)
Theorem resumed_part_animates (c : Fields) (s s' : State) (t : nat)
    (task : Task) :
  findTask t s = Some task → exec c (Resume t) s = Some s' →
  animations s' = animations s ++ startedBy c (stage task) ∧
  ∀ task', In task' (pending s') → tid task' = t →
    awaited task' =
      seq (length (animations s)) (length (startedBy c (stage task))).
Proof.
  intros Hfind Hex.
  apply (exec_resume c t task) in Hex as [_ ->]; [| done].
  destruct (findTask_In _ _ _ Hfind) as [_ Htid]. revert Htid. clear.
  intros Htid. unfold startedBy, showHide. unfold_controller. crunch.
  all: rewrite ?app_nil_r; (split; [reflexivity |]).
  all: intros task' Hin Ht.
  all: repeat match goal with
         | H : In _ (_ ++ _) |- _ => apply in_app_or in H as [H | H]
         | H : In _ (List.filter _ _) |- _ =>
             apply filter_In in H as [_ H]; rewrite Ht, Nat.eqb_refl in H;
             discriminate H
         | H : In _ [_] |- _ => destruct H as [<- | []]
         | H : In _ [] |- _ => destruct H
         end.
  all: reflexivity.
Qed.

Lemma resumed_part_animates_witness :
  animations demoOpening = [showHide true] ∧
  ∀ task', In task' (pending demoOpening) → tid task' = 0 → awaited task' = [0].
Proof.
  refine (resumed_part_animates demo (open (initial demoDocument)) demoOpening 0
            {| tid := 0; stage := OpenInitiated; awaited := [] |} _ _);
    vm_compute; reflexivity.
Defined.

(** X8. A call that initiated a change of the open state waits for nothing
    but the animations that were running when it did: in whatever state it
    was made (the picker element may have idle, paused and finished
    animations besides running ones) and however the run went on, it can be
    resumed at its first [await] exactly when every one of the animations
    that were running has finished. Animations started later, and
    animations that were idle, paused or finished at the time, do not hold
    it up. *)
Theorem initiation_waits_for_nothing_else (c : Fields) (openState : bool)
    (s : State) (ls : list Label) (s2 : State) (task : Task) :
  tasksInv s → isOpen s = negb openState →
  run c ls (initiate openState s) = Some s2 →
  findTask (nextTask s) s2 = Some task → isInitiated (stage task) = true →
  (is_Some (exec c (Resume (nextTask s)) s2) ↔
   ∀ a, runningAt s a = true → finishedAt s2 a = true).
Proof.
  intros Hfresh Hopen Hrun Hfind Hst.
  set (t := nextTask s) in *.
  assert (pending (initiate openState s) = pending s ++
            [{| tid := t; stage := initiatedStage openState;
                awaited := getRunningAnimations s |}] ∧
          nextTask (initiate openState s) = S t) as (Hpend & Hnext).
  { subst t. unfold initiate, initiatedStage.
    destruct openState; unfold_controller; simpl in *; rewrite Hopen; simpl;
      done. }
  assert (initiatedInv t openState (getRunningAnimations s) s2) as [_ Hinv].
  { eapply (run_invariant c (initiatedInv t openState (getRunningAnimations s)));
      [| | exact Hrun].
    - intros l s0 s0'. apply initiatedInv_exec.
    - split; [lia |]. intros task0 Hin Htid _. rewrite Hpend in Hin.
      apply in_app_or in Hin as [Hin | [<- | []]]; [| done].
      apply Hfresh in Hin. subst t. lia. }
  pose proof (findTask_In _ _ _ Hfind) as [Hin Htid].
  pose proof (Hinv task Hin Htid Hst) as Htask.
  simpl. rewrite Hfind. unfold ready. rewrite Htask. simpl.
  destruct (forallb (finishedAt s2) (getRunningAnimations s)) eqn:Hall.
  - split; [intros _ | by eauto].
    rewrite forallb_forall in Hall. intros a Ha. apply Hall.
    by apply list_elem_of_In, elem_of_getRunningAnimations.
  - split; [by intros [x Hx] |]. intros Hfin.
    assert (forallb (finishedAt s2) (getRunningAnimations s) = true) as Hyes;
      [| congruence].
    apply forallb_forall. intros a Ha. apply Hfin.
    by apply elem_of_getRunningAnimations, list_elem_of_In.
Qed.

(** Of the animations of [demoPaused] the show animation alone runs. *)
Lemma demoPaused_running (a : nat) : runningAt demoPaused a = true → a = 0.
Proof.
  unfold runningAt.
  assert (animations demoPaused =
            [showHide true; {| animationName := "other"; playState := Paused |}])
    as -> by (vm_compute; reflexivity).
  destruct a as [| [| a]]; simpl; [done | discriminate | discriminate].
Qed.

Lemma demoPaused_tasksInv : tasksInv demoPaused ∧ nextTask demoPaused = 1.
Proof.
  assert (nextTask demoPaused = 1) as Hn by (vm_compute; reflexivity).
  split; [| exact Hn]. unfold tasksInv. rewrite Hn.
  assert (pending demoPaused =
            [{| tid := 0; stage := OpenAnimating; awaited := [0] |}])
    as -> by (vm_compute; reflexivity).
  intros task [<- | []]. simpl. lia.
Qed.

(** [close()] called while the show animation runs and another animation
    of the picker element is paused; a third one is started after the call.
    Once the show animation has finished [close()] can go on, the second
    animation still paused and the third still running. *)
Lemma initiation_waits_for_nothing_else_witness :
  let s2 := after demo [AnimationStarted "late"; AnimationFinished 0; Resume 0]
                  (initiate false demoPaused) in
  playState <$> animations s2 !! 1 = Some Paused ∧
  runningAt s2 2 = true ∧
  is_Some (exec demo (Resume 1) s2).
Proof.
  intros s2. split; [vm_compute; reflexivity |].
  split; [vm_compute; reflexivity |].
  destruct demoPaused_tasksInv as [Hfresh Hn]. rewrite <- Hn.
  apply (initiation_waits_for_nothing_else demo false demoPaused
           [AnimationStarted "late"; AnimationFinished 0; Resume 0] s2
           {| tid := 1; stage := CloseInitiated Detached; awaited := [0] |}
           Hfresh).
  - vm_compute. reflexivity.
  - vm_compute. reflexivity.
  - vm_compute. reflexivity.
  - reflexivity.
  - intros a Ha. apply demoPaused_running in Ha as ->. vm_compute. reflexivity.
Defined.

(** ** The positioning cleanup is kept, and [close()] relies on it *)

Lemma cleanup_kept_step (c : Fields) (l : Label) (s s' : State) :
  exec c l s = Some s' →
  (positionCleanup s ≠ None → positionCleanup s' ≠ None) ∧
  ((∀ g, ¬ In (PositionInstall g) (effectsSince s s')) →
   positionCleanup s' = positionCleanup s ∧ positioned s' ⊆ positioned s).
Proof.
  intros Hex. destruct l; simpl in Hex.
  1-9: injection Hex as <-; unfold_controller; crunch.
  all: try (split; [done | intros _; split; [done | set_solver]]).
  all: try (split; [by intros _ | intros _; split; [done | set_solver]]).
  - destruct (animations s !! a) as [anim |]; [| discriminate].
    destruct (isRunning anim); [| discriminate].
    injection Hex as <-. simpl.
    split; [tauto | intros _; split; [reflexivity | set_solver]].
  - destruct (findTask t s) as [task |] eqn:Hfind; [| discriminate].
    destruct (ready s task) eqn:Hready; [| discriminate].
    injection Hex as <-. clear. unfold effectsSince. unfold_controller. crunch.
    all: rewrite <- ?app_assoc; rewrite ?drop_app_length, ?drop_all; simpl.
    all: split; [congruence |]; intros Hno.
    all: try (split; [congruence | set_solver]).
    all: exfalso; eapply Hno; eauto 10.
Qed.

(** X9. [positionCleanup] is assigned by [setPosition] and by nothing else,
    and never cleared: in every run, once set it stays set, and as long as
    no new positioning is installed it stays the same function and no
    positioning comes into effect. [close()] calls that function and goes on
    holding it, so the next [setPosition] calls the same function again
    before it installs the new positioning. *)
Theorem positionCleanup_never_cleared (c : Fields) (ls : list Label)
    (s s' : State) :
  run c ls s = Some s' →
  (positionCleanup s ≠ None → positionCleanup s' ≠ None) ∧
  ((∀ g, ¬ In (PositionInstall g) (effectsSince s s')) →
   positionCleanup s' = positionCleanup s ∧ positioned s' ⊆ positioned s ∧
   ∀ f, positionCleanup s = Some f →
        In (PositionCleanupCall f) (effectsSince s' (setPosition s'))).
Proof.
  revert s. induction ls as [| l ls IH]; intros s Hrun; simpl in Hrun.
  - injection Hrun as <-. split; [done |]. intros _.
    split; [done |]. split; [done |]. intros f Hf.
    rewrite (effectsSince_app _ _ _ (trace_setPosition s)), Hf. by left.
  - destruct (exec c l s) as [s1 |] eqn:Hex; [| discriminate].
    destruct (cleanup_kept_step c l s s1 Hex) as [Hset1 Hkeep1].
    destruct (IH s1 Hrun) as [Hset Hkeep].
    split; [tauto |]. intros Hno.
    rewrite (run_trace_splits c l ls s s1 s' Hex Hrun) in Hno.
    destruct Hkeep1 as [Hpc1 Hpos1].
    { intros g Hg. apply (Hno g), in_or_app. by left. }
    destruct Hkeep as (Hpc & Hpos & Hcall).
    { intros g Hg. apply (Hno g), in_or_app. by right. }
    split; [congruence |]. split; [set_solver |].
    intros f Hf. apply Hcall. congruence.
Qed.

(** The picker opened and closed again: [close()] has called cleanup 0, no
    positioning is in effect, and the next [setPosition] calls cleanup 0
    once more. *)
Lemma positionCleanup_never_cleared_witness :
  In (PositionCleanupCall 0) (effectsSince demoOpened demoClosed) ∧
  positioned demoClosed = ∅ ∧
  positionCleanup demoClosed = Some 0 ∧
  In (PositionCleanupCall 0) (effectsSince demoClosed (setPosition demoClosed)).
Proof.
  destruct (positionCleanup_never_cleared demo closeThrough demoOpened demoClosed)
    as [_ Hkeep]; [vm_compute; reflexivity |].
  destruct Hkeep as (Hpc & _ & Hcall).
  { intros g Hg. vm_compute in Hg. intuition discriminate. }
  split; [vm_compute; tauto |]. split; [vm_compute; reflexivity |].
  split; [exact Hpc |]. apply Hcall. reflexivity.
Defined.

Lemma close_rejected_step (c : Fields) (l : Label) (s s' : State) :
  exec c l s = Some s' →
  In (Settled MClose Rejected) (effectsSince s s') →
  positionCleanup s = None ∧
  ∃ t task k, l = Resume t ∧ findTask t s = Some task ∧
              stage task = CloseAnimating k.
Proof.
  intros Hex. destruct l; simpl in Hex.
  1-9: injection Hex as <-; read_effects.
  - destruct (animations s !! a) as [anim |]; [| discriminate].
    destruct (isRunning anim); [| discriminate].
    injection Hex as <-. read_effects.
  - destruct (findTask t s) as [task |] eqn:Hfind; [| discriminate].
    destruct (ready s task) eqn:Hready; [| discriminate].
    injection Hex as <-.
    destruct (stage task) as [| | k | k | o] eqn:Hst.
    4: { intros Hin. unfold resume in Hin. rewrite Hst in Hin.
         rewrite (effectsSince_app s _ _
                    (close_afterAnimate_effects c k t (tid task) s)) in Hin.
         destruct (positionCleanup s); [no_such_effect |].
         split; [done |]. by exists t, task, k. }
    all: unfold resume; rewrite Hst; clear; read_effects.
    all: intros Hin; no_such_effect.
Qed.

(** X10. The last statement of [close()], [this.positionCleanup()], is not
    guarded. Once a positioning has been set up it cannot fail: from a state
    in which [positionCleanup] is set, no [close()] rejects, whatever calls
    and events follow and in whatever order suspended calls are resumed. *)
Theorem close_resolves_once_positioned (c : Fields) (ls : list Label)
    (s s' : State) :
  positionCleanup s ≠ None → run c ls s = Some s' →
  ¬ In (Settled MClose Rejected) (effectsSince s s').
Proof.
  revert s. induction ls as [| l ls IH]; intros s Hpc Hrun; simpl in Hrun.
  - injection Hrun as <-.
    rewrite (effectsSince_app s s []) by (by rewrite app_nil_r). intros [].
  - destruct (exec c l s) as [s1 |] eqn:Hex; [| discriminate].
    rewrite (run_trace_splits c l ls s s1 s' Hex Hrun).
    intros Hin. apply in_app_or in Hin as [Hin | Hin].
    + apply (close_rejected_step c l s s1 Hex) in Hin as [Hnone _]. done.
    + revert Hin. apply IH; [| done].
      by apply (cleanup_kept_step c l s s1 Hex).
Qed.

Lemma close_resolves_once_positioned_witness :
  ¬ In (Settled MClose Rejected) (effectsSince demoOpened demoClosed).
Proof.
  apply (close_resolves_once_positioned demo closeThrough demoOpened demoClosed).
  - vm_compute. discriminate.
  - vm_compute. reflexivity.
Defined.

(** ** Suspended calls are told apart, and an open picker is positioned *)

Lemma NoDup_tids_filter (f : Task → bool) (p : list Task) :
  NoDup (map tid p) → NoDup (map tid (List.filter f p)).
Proof.
  induction p as [| x p IH]; simpl; [done |].
  intros Hnd. apply NoDup_cons in Hnd as [Hx Hnd].
  destruct (f x); simpl; [| by apply IH].
  apply NoDup_cons. split; [| by apply IH].
  intros Hin. apply Hx. apply list_elem_of_In in Hin. apply list_elem_of_In.
  apply in_map_iff in Hin as (y & Hy & Hin). apply filter_In in Hin as [Hin _].
  apply in_map_iff. eauto.
Qed.

Lemma NoDup_tids_snoc (p : list Task) (x : Task) :
  NoDup (map tid p) → ¬ In (tid x) (map tid p) → NoDup (map tid (p ++ [x])).
Proof.
  intros Hnd Hx. rewrite map_app. apply NoDup_app. split; [done |].
  split; [| apply NoDup_singleton].
  intros y Hy Hy'. apply list_elem_of_singleton in Hy'. subst y.
  apply Hx. by apply list_elem_of_In.
Qed.

Lemma NoDup_tids_inj (p : list Task) (x y : Task) :
  NoDup (map tid p) → In x p → In y p → tid x = tid y → x = y.
Proof.
  induction p as [| z p IH]; simpl; [done |].
  intros Hnd Hx Hy Heq. apply NoDup_cons in Hnd as [Hz Hnd].
  destruct Hx as [-> | Hx], Hy as [-> | Hy]; [done | | | by apply IH].
  - destruct Hz. apply list_elem_of_In, in_map_iff. eauto.
  - destruct Hz. apply list_elem_of_In, in_map_iff. eauto.
Qed.

Lemma not_in_filtered (t : nat) (p : list Task) :
  ¬ In t (map tid (List.filter (fun x => negb (Nat.eqb (tid x) t)) p)).
Proof.
  intros Hin. apply in_map_iff in Hin as (y & Hy & Hin).
  apply filter_In in Hin as [_ Hne]. rewrite Hy, Nat.eqb_refl in Hne. discriminate.
Qed.

Lemma fresh_tid (s : State) :
  tasksInv s → ¬ In (nextTask s) (map tid (pending s)).
Proof.
  intros Hinv Hin. apply in_map_iff in Hin as (y & Hy & Hin).
  apply Hinv in Hin. lia.
Qed.

Lemma dom_open_close (k : Continuation) (s : State) :
  dom (open s) = dom s ∧ dom (close k s) = dom s.
Proof. unfold_controller. crunch; done. Qed.

Lemma pending_resume (c : Fields) (task : Task) (t : nat) (s : State) :
  ∃ rest,
    pending (resume c task (dropTask t s)) =
      List.filter (fun x => negb (Nat.eqb (tid x) t)) (pending s) ++ rest ∧
    (rest = [] ∨
     ∃ st w, rest = [{| tid := tid task; stage := st; awaited := w |}] ∧
             st ≠ OpenInitiated).
Proof.
  destruct (resume_spec c task t s) as (new & rest & _ & Hp & Hstage).
  exists rest. split; [exact Hp |].
  destruct (stage task) as [| | k | k | o].
  - destruct Hstage as (_ & w & ->). right. by eexists _, w.
  - destruct Hstage as (_ & _ & ->). by left.
  - destruct Hstage as (w & ->). right. by eexists _, w.
  - destruct Hstage as (_ & _ & ->). destruct k; [by left |]. right.
    by eexists _, [].
  - destruct Hstage as [-> _]. by left.
Qed.

Lemma positionCleanup_resume (c : Fields) (task : Task) (t : nat) (s : State) :
  (stage task = OpenInitiated →
   positionCleanup (resume c task (dropTask t s)) ≠ None) ∧
  (stage task ≠ OpenInitiated →
   positionCleanup (resume c task (dropTask t s)) = positionCleanup s).
Proof.
  unfold_controller. crunch; split; intros; congruence.
Qed.

Lemma wellFormed_exec (c : Fields) (l : Label) (s s' : State) :
  wellFormed s → exec c l s = Some s' → wellFormed s'.
Proof.
  intros Hwf Hex.
  apply (exec_preserves_when c wellFormed (fun _ _ => True))
    with (l := l) (s := s);
    [| | | | | | | | exact Hwf | done | exact Hex]; clear Hwf Hex; clear l s s'.
  - intros m s H. exact H.
  - intros s (Ht & Hu & Hk).
    pose proof (tasksInv_exec c CallOpen s (open s) Ht eq_refl) as Ht'.
    destruct (open_fields s) as (Hio & Hpc & _ & Hp).
    split; [done |]. unfold uniqueTids, openRequested. rewrite Hp, Hpc.
    destruct (isOpen s) eqn:Hs; rewrite ?app_nil_r;
      [split; [done | intros _; by apply Hk] |]. split.
    + apply NoDup_tids_snoc; [done |]. by apply fresh_tid.
    + intros _ _. eexists. split; [apply in_or_app; right; by left | done].
  - intros k s (Ht & Hu & Hk) Hcase.
    assert (tasksInv (close k s)) as Ht'.
    { revert Ht. unfold tasksInv. unfold_controller.
      crunch; intros Hinv task Hin; split_membership Hinv; lia. }
    destruct (close_fields k s Hcase) as (Hio & Hpc & _ & Hp).
    split; [done |]. unfold uniqueTids, openRequested. rewrite Hp, Hio.
    split; [| done].
    destruct (isOpen s); rewrite ?app_nil_r; [| done].
    apply NoDup_tids_snoc; [done |]. by apply fresh_tid.
  - intros s H. exact H.
  - intros e cb s H. exact H.
  - intros name s H. exact H.
  - intros a anim s _ _ H. exact H.
  - intros t task s Hfind Hready _ (Ht & Hu & Hk).
    assert (tasksInv (resume c task (dropTask t s))) as Ht'.
    { apply (tasksInv_exec c (Resume t) s); [done |].
      simpl. by rewrite Hfind, Hready. }
    split; [done |].
    destruct (findTask_In _ _ _ Hfind) as [Hin Htid].
    destruct (pending_resume c task t s) as (rest & Hp & Hrest).
    destruct (positionCleanup_resume c task t s) as [Hset Hsame].
    unfold uniqueTids, openRequested. rewrite Hp, isOpen_resume. split.
    + destruct Hrest as [-> | (st & w & -> & _)].
      * rewrite app_nil_r. by apply NoDup_tids_filter.
      * apply NoDup_tids_snoc; [by apply NoDup_tids_filter |].
        simpl. rewrite Htid. apply not_in_filtered.
    + intros Hio Hnone.
      destruct (stage task) eqn:Hst;
        try (by destruct (Hset eq_refl)).
      all: rewrite Hsame in Hnone by done.
      all: destruct (Hk Hio Hnone) as (O & HO & HstO).
      all: exists O; split; [| done].
      all: apply in_or_app; left; apply filter_In; split; [done |].
      all: apply negb_true_iff, Nat.eqb_neq; intros Heq.
      all: assert (O = task) as -> by
             (apply (NoDup_tids_inj (pending s)); [done | done | done | congruence]).
      all: congruence.
Qed.

Lemma reachable_wellFormed (c : Fields) (s : State) :
  reachable c s → wellFormed s.
Proof.
  intros (d & ls & Hrun).
  eapply (run_invariant c wellFormed); [| | exact Hrun].
  - intros l s0 s1. apply wellFormed_exec.
  - split; [intros task [] |]. split; [apply NoDup_nil_2 |]. discriminate.
Qed.

(** Open with no call suspended: a positioning has been set up. *)
Lemma settled_open_positioned (c : Fields) (s : State) :
  reachable c s → pending s = [] → isOpen s = true → positionCleanup s ≠ None.
Proof.
  intros Hreach Hp Hio Hnone.
  destruct (reachable_wellFormed c s Hreach) as (_ & _ & Hk).
  destruct (Hk Hio Hnone) as (task & Hin & _). rewrite Hp in Hin. destruct Hin.
Qed.

(** X11. The calls do resolve. In every state the controller can reach in
    which no call is suspended, [open()] on a closed picker, [close()] on an
    open one and [destroy()] can each be carried through to the point where
    their promise is resolved and nothing is suspended, by the animations
    they wait for finishing and the calls being resumed; none of them gets
    stuck or rejects there. *)
Theorem calls_resolve (c : Fields) (s : State) :
  reachable c s → pending s = [] →
  (isOpen s = false →
   ∃ ls s', forallb quiet ls = true ∧ run c ls (open s) = Some s' ∧
            pending s' = [] ∧ In (Settled MOpen Resolved) (effectsSince s s')) ∧
  (isOpen s = true →
   ∃ ls s', forallb quiet ls = true ∧ run c ls (close Detached s) = Some s' ∧
            pending s' = [] ∧ In (Settled MClose Resolved) (effectsSince s s')) ∧
  (∃ ls s', forallb quiet ls = true ∧ run c ls (destroy s) = Some s' ∧
            pending s' = [] ∧ In (Settled MDestroy Resolved) (effectsSince s s')).
Proof.
  intros Hreach Hp. split; [| split].
  - by apply open_resolves.
  - intros Hio. apply close_resolves; [done | done |].
    by apply (settled_open_positioned c).
  - apply destroy_resolves; [done |]. by apply (settled_open_positioned c).
Qed.

Lemma calls_resolve_witness :
  ∃ ls s', forallb quiet ls = true ∧
           run demo ls (close Detached demoOpened) = Some s' ∧
           pending s' = [] ∧
           In (Settled MClose Resolved) (effectsSince demoOpened s').
Proof.
  refine (proj1 (proj2 (calls_resolve demo demoOpened demoOpened_reachable _)) _);
    reflexivity.
Defined.

Lemma demoInitial_reachable : reachable demo (initial demoDocument).
Proof. by exists demoDocument, []. Qed.

Lemma toggle_eq (s : State) :
  toggle s = if isOpen s then close Detached (effect (Enter MToggle) s)
             else open (effect (Enter MToggle) s).
Proof. reflexivity. Qed.

(** X12. [toggle()] flips the picker. It sets [isOpen] to its negation
    before it returns. Called in a state the controller can reach in which
    no call is suspended, it can be carried through, and whenever it has
    been, with nothing but animations and the scheduler acting: on a closed
    picker the popup element is a child of the root element, [open()] has
    resolved and 'picker:open' was emitted once; on an open picker the popup
    element is out of the document, [close()] has resolved and nothing was
    emitted. *)
Theorem toggle_flips (c : Fields) (s : State) :
  reachable c s → pending s = [] →
  isOpen (toggle s) = negb (isOpen s) ∧
  (∃ ls s', forallb quiet ls = true ∧ run c ls (toggle s) = Some s' ∧
            pending s' = []) ∧
  (∀ ls s', forallb quiet ls = true → run c ls (toggle s) = Some s' →
            pending s' = [] →
     isOpen s' = negb (isOpen s) ∧
     if isOpen s
     then dom s' !! popupEl c = None ∧
          In (Settled MClose Resolved) (effectsSince s s') ∧
          emitted s' = emitted s
     else dom s' !! popupEl c = Some (rootElement c) ∧
          In (Settled MOpen Resolved) (effectsSince s s') ∧
          emitted s' = emitted s ++ ["picker:open"]).
Proof.
  intros Hreach Hp. set (s0 := effect (Enter MToggle) s).
  assert (trace s0 = trace s ++ [Enter MToggle]) as Htr0 by done.
  assert (emitted s0 = emitted s) as Hem0.
  { unfold s0. rewrite emitted_effect. by rewrite app_nil_r. }
  rewrite toggle_eq. fold s0.
  destruct (isOpen s) eqn:Hio; simpl.
  - assert (positionCleanup s0 ≠ None) as Hpc
      by (by apply (settled_open_positioned c s)).
    split; [apply isOpen_close |]. split.
    + destruct (close_resolves c s0 Hp Hio Hpc) as (ls & s' & Hq & Hrun & Hp' & _).
      by exists ls, s'.
    + intros ls s' Hq Hrun Hp'.
      assert (CloseProgress c Detached s0 [] s') as Hprog.
      { eapply (quiet_run_invariant c (CloseProgress c Detached s0 []));
          [| exact Hq | | exact Hrun].
        - intros l0 x x' Hl. by apply CloseProgress_exec.
        - apply close_starts; try done. by rewrite app_nil_r. }
      destruct Hprog as [s' task Hp1 | s' task anim Hp1
                        | s' anim Hk Hp1 Hio' Hdom Han Htr
                        | s' task anim Hk | s' anim Hk];
        try (rewrite Hp' in Hp1; discriminate); try discriminate.
      split; [done |]. split; [done |].
      assert (trace s' = trace s ++ Enter MToggle :: Enter MClose :: anim
                ++ closeEffects3 c s0) as Htr'.
      { rewrite Htr, Htr0, <- app_assoc. done. }
      split.
      * rewrite (effectsSince_app _ _ _ Htr'). do 2 right.
        apply in_or_app. right. unfold closeEffects3.
        destruct (positionCleanup s0); [simpl; tauto | done].
      * unfold emitted. rewrite Htr', omap_app. unfold closeEffects3.
        destruct Han as [-> | [a ->]], (positionCleanup s0); simpl;
          by rewrite app_nil_r.
  - split; [by destruct (open_fields s0) |]. split.
    + destruct (open_resolves c s0 Hp Hio) as (ls & s' & Hq & Hrun & Hp' & _).
      by exists ls, s'.
    + intros ls s' Hq Hrun Hp'.
      assert (OpenProgress c s0 s') as Hprog.
      { eapply (quiet_run_invariant c (OpenProgress c s0));
          [| exact Hq | | exact Hrun].
        - intros l0 x x' Hl. by apply OpenProgress_exec.
        - by apply open_starts. }
      destruct Hprog as [s' task Hp1 | s' task anim Hp1
                        | s' anim Hp1 Hio' Hdom Han Htr];
        try (rewrite Hp' in Hp1; discriminate).
      split; [done |]. split; [done |]. split.
      * rewrite (effectsSince_app s s' (Enter MToggle :: Enter MOpen ::
                   openEffects2 c s0 anim ++ openEffects3 s0))
          by (rewrite Htr, Htr0, <- app_assoc; done).
        do 2 right. apply in_or_app. right. unfold openEffects3.
        apply in_or_app. right. apply in_or_app. right. by left.
      * rewrite <- Hem0. by apply (emitted_open_done c s0 s' anim).
Qed.

Lemma toggle_flips_witness :
  isOpen (toggle demoOpened) = false ∧
  isOpen (toggle (initial demoDocument)) = true.
Proof.
  split.
  - exact (proj1 (toggle_flips demo demoOpened demoOpened_reachable eq_refl)).
  - exact (proj1 (toggle_flips demo (initial demoDocument)
                    demoInitial_reachable eq_refl)).
Defined.

(** ** With the last part of [close()] in its turn, no call rejects *)

Lemma advances_started (x : Animation) (s : State) :
  advances s (set_animations (animations s ++ [x]) s).
Proof.
  intros b. unfold finishedAt, runningAt. simpl.
  destruct (animations s !! b) as [y |] eqn:Hb.
  - rewrite (lookup_app_l_Some _ _ _ _ Hb). split; [done | by left].
  - split; discriminate.
Qed.

Lemma advances_finished (a : nat) (anim : Animation) (s : State) :
  animations s !! a = Some anim →
  advances s (set_animations (<[a := finish anim]> (animations s)) s).
Proof.
  intros Ha b. unfold finishedAt, runningAt. simpl.
  pose proof (lookup_lt_Some _ _ _ Ha) as Hlt.
  destruct (decide (a = b)) as [<- | Hne].
  - rewrite list_lookup_insert_eq by done. rewrite Ha. simpl.
    split; [done | by right].
  - rewrite list_lookup_insert_ne by done. split; [done | by left].
Qed.

(** A resumed part rejects only as the last part of a [close()] that finds
    no positioning cleanup, or as a [destroy()] whose [close()] rejected. *)
Lemma rejected_step (c : Fields) (task : Task) (t : nat) (s : State)
    (m : Method) :
  In (Settled m Rejected) (effectsSince s (resume c task (dropTask t s))) →
  (∃ k, stage task = CloseAnimating k ∧ positionCleanup s = None) ∨
  stage task = DestroyClosing Rejected.
Proof.
  destruct (stage task) as [| | k | k | o] eqn:Hst.
  4: { intros Hin. unfold resume in Hin. rewrite Hst in Hin.
       rewrite (effectsSince_app s _ _
                  (close_afterAnimate_effects c k t (tid task) s)) in Hin.
       destruct (positionCleanup s); [no_such_effect |]. left. by exists k. }
  4: { destruct o; [| by right].
       unfold resume; rewrite Hst; clear; read_effects. }
  all: unfold resume; rewrite Hst; clear; read_effects.
  all: intros Hin; no_such_effect.
Qed.

Lemma noReject_resume (c : Fields) (task : Task) (t : nat) (s : State) :
  findTask t s = Some task →
  (∀ k, stage task = CloseAnimating k → positionCleanup s ≠ None) →
  noReject s → noReject (resume c task (dropTask t s)).
Proof.
  intros Hfind Hpc [Htr Hpend].
  destruct (findTask_In _ _ _ Hfind) as [Hin _].
  destruct (resume_spec c task t s) as (new & rest & Hnew & Hp & Hstage).
  split.
  - intros m Hm. rewrite Hnew in Hm. apply in_app_or in Hm as [Hm | Hm].
    + by apply (Htr m).
    + rewrite <- (effectsSince_app s _ _ Hnew) in Hm.
      apply rejected_step in Hm as [(k & Hst & Hnone) | Hst].
      * by apply (Hpc k).
      * by apply (Hpend task).
  - intros x Hx. rewrite Hp in Hx. apply in_app_or in Hx as [Hx | Hx].
    + apply filter_In in Hx as [Hx _]. by apply Hpend.
    + destruct (stage task) as [| | k | k | o] eqn:Hst.
      * destruct Hstage as (_ & w & ->). by destruct Hx as [<- | []].
      * destruct Hstage as (_ & _ & ->). destruct Hx.
      * destruct Hstage as (w & ->). by destruct Hx as [<- | []].
      * destruct Hstage as (_ & _ & ->). destruct k; [destruct Hx |].
        destruct Hx as [<- | []]. simpl. unfold closeOutcome.
        specialize (Hpc ThenDestroy eq_refl).
        by destruct (positionCleanup s).
      * destruct Hstage as [-> _]. destruct Hx.
Qed.

(** [noReject] is kept when nothing recorded is a rejection and no new
    suspended call waits on one. *)
Lemma noReject_ext (s s' : State) (new : list Effect) :
  trace s' = trace s ++ new → (∀ m, ¬ In (Settled m Rejected) new) →
  (∀ task, In task (pending s') →
           In task (pending s) ∨ stage task ≠ DestroyClosing Rejected) →
  noReject s → noReject s'.
Proof.
  intros Htr Hnew Hp [Hold Hpend]. split.
  - intros m Hm. rewrite Htr in Hm. apply in_app_or in Hm as [Hm | Hm].
    + by apply (Hold m).
    + by apply (Hnew m).
  - intros task Hin. destruct (Hp task Hin) as [Hin' | Hne]; [by apply Hpend | done].
Qed.

(** [close()] keeps [wellFormed], also when [destroy()] calls it. *)
Lemma wellFormed_close (k : Continuation) (s : State) :
  wellFormed s → isOpen s = true ∨ k = Detached → wellFormed (close k s).
Proof.
  intros (Ht & Hu & Hk) Hcase.
  assert (tasksInv (close k s)) as Ht'.
  { revert Ht. unfold tasksInv. unfold_controller.
    crunch; intros Hinv task Hin; split_membership Hinv; lia. }
  destruct (close_fields k s Hcase) as (Hio & Hpc & _ & Hp).
  split; [done |]. unfold uniqueTids, openRequested. rewrite Hp, Hio.
  split; [| done].
  destruct (isOpen s); rewrite ?app_nil_r; [| done].
  apply NoDup_tids_snoc; [done |]. by apply fresh_tid.
Qed.

Lemma runningAt_resume (c : Fields) (task : Task) (t a : nat) (s : State) :
  runningAt s a = true → runningAt (resume c task (dropTask t s)) a = true.
Proof.
  unfold runningAt.
  destruct (animations s !! a) as [x |] eqn:Ha; [| discriminate]. intros Hf.
  assert (∀ extra, (animations s ++ extra) !! a = Some x) as Happ.
  { intros extra. by apply lookup_app_l_Some. }
  unfold_controller. crunch; try (rewrite Happ in *); congruence.
Qed.

(** [beforeFirstPosition] is kept by what the page and the environment can
    do: it looks at [isOpen], the suspended calls and the animations only;
    [open()] adds a call it covers itself; [close()] on an open picker adds
    one that a suspended [open()] covers; animations only move on. *)
Lemma beforeFirstPosition_ext (s s' : State) :
  isOpen s' = isOpen s → pending s' = pending s → animations s' = animations s →
  beforeFirstPosition s → beforeFirstPosition s'.
Proof.
  unfold beforeFirstPosition, finishedAt, runningAt.
  intros -> -> ->. done.
Qed.

Lemma beforeFirstPosition_grows (s s' : State) (new : list Task) :
  pending s' = pending s ++ new → animations s' = animations s →
  beforeFirstPosition s →
  (∀ T, In T new →
     stage T = OpenInitiated ∨
     ∃ k, stage T = CloseInitiated k ∧
       ∃ O, In O (pending s) ∧ stage O = OpenInitiated ∧ tid O < tid T ∧
            ∀ a, In a (awaited O) → In a (awaited T) ∨ finishedAt s a = true) →
  (∀ O, In O new → stage O = OpenInitiated →
        ∀ a, In a (awaited O) → runningAt s a = true) →
  (isOpen s' = true → isOpen s = true ∨ ∃ O, In O new ∧ stage O = OpenInitiated) →
  beforeFirstPosition s'.
Proof.
  intros Hp Han (Hst & Hci & Hca & Hreq & Hrun) Hnew Hnewrun Hio.
  unfold beforeFirstPosition, finishedAt, runningAt. rewrite Hp, Han.
  split; [| split; [| split; [| split]]].
  - intros task Hin. apply in_app_or in Hin as [Hin | Hin]; [by apply Hst |].
    destruct (Hnew task Hin) as [? | (k & ? & _)]; [by left | right; left; eauto].
  - intros T k Hin HstT. apply in_app_or in Hin as [Hin | Hin].
    + destruct (Hci T k Hin HstT) as (O & HO & ? & ? & ?).
      exists O. split; [apply in_or_app; by left | done].
    + destruct (Hnew T Hin) as [? | (k' & _ & O & HO & ? & ? & ?)]; [congruence |].
      exists O. split; [apply in_or_app; by left | done].
  - intros T k Hin HstT. apply in_app_or in Hin as [Hin | Hin].
    + destruct (Hca T k Hin HstT) as (O & HO & ? & ? & ?).
      exists O. split; [apply in_or_app; by left | done].
    + destruct (Hnew T Hin) as [? | (k' & ? & _)]; congruence.
  - intros Hopen. destruct (Hio Hopen) as [Hwas | (O & HO & ?)].
    + destruct (Hreq Hwas) as (O & HO & ?).
      exists O. split; [apply in_or_app; by left | done].
    + exists O. split; [apply in_or_app; by right | done].
  - intros O Hin HstO a Ha. apply in_app_or in Hin as [Hin | Hin].
    + by apply (Hrun O).
    + left. by apply (Hnewrun O).
Qed.

Lemma beforeFirstPosition_open (s : State) :
  beforeFirstPosition s → beforeFirstPosition (open s).
Proof.
  intros Hb. destruct (open_fields s) as (Hio & _ & Han & Hp).
  apply (beforeFirstPosition_grows s _ _ Hp Han Hb).
  - intros T Hin. destruct (isOpen s); [destruct Hin |].
    destruct Hin as [<- | []]. by left.
  - intros O Hin _ a Ha. destruct (isOpen s); [destruct Hin |].
    destruct Hin as [<- | []]. simpl in Ha.
    by apply list_elem_of_In, elem_of_getRunningAnimations in Ha.
  - intros _. destruct (isOpen s); [by left | right].
    eexists. split; [by left | done].
Qed.

Lemma beforeFirstPosition_close (k : Continuation) (s : State) :
  tasksInv s → beforeFirstPosition s → isOpen s = true ∨ k = Detached →
  beforeFirstPosition (close k s).
Proof.
  intros Hfresh Hb Hcase. destruct (close_fields k s Hcase) as (Hio & _ & Han & Hp).
  apply (beforeFirstPosition_grows s _ _ Hp Han Hb).
  - intros T Hin. destruct (isOpen s) eqn:Hs; [| destruct Hin].
    destruct Hin as [<- | []]. right. exists k. split; [done |].
    destruct Hb as (_ & _ & _ & Hreq & Hrun).
    destruct (Hreq Hs) as (O & HO & HstO).
    exists O. split; [done |]. split; [done |].
    split; [simpl; by apply Hfresh |].
    intros a Ha. simpl.
    destruct (Hrun O HO HstO a Ha) as [Hr | Hf]; [left | by right].
    by apply list_elem_of_In, elem_of_getRunningAnimations.
  - intros O Hin HstO. destruct (isOpen s); [| destruct Hin].
    destruct Hin as [<- | []]. discriminate HstO.
  - rewrite Hio. discriminate.
Qed.

Lemma beforeFirstPosition_advances (s s' : State) :
  advances s s' → isOpen s' = isOpen s → pending s' = pending s →
  beforeFirstPosition s → beforeFirstPosition s'.
Proof.
  intros Hadv Hio Hp (Hst & Hci & Hca & Hreq & Hrun).
  unfold beforeFirstPosition. rewrite Hio, Hp.
  split; [done |]. split; [| split; [| split; [done |]]].
  - intros T k Hin HstT.
    destruct (Hci T k Hin HstT) as (O & HO & HstO & Hlt & Hall).
    exists O. split; [done |]. split; [done |]. split; [done |].
    intros a Ha. destruct (Hall a Ha) as [? | Hf]; [by left | right].
    by apply Hadv.
  - intros T k Hin HstT.
    destruct (Hca T k Hin HstT) as (O & HO & HstO & Hlt & Hall).
    exists O. split; [done |]. split; [done |]. split; [done |].
    intros a Ha. by apply Hadv, Hall.
  - intros O Hin HstO a Ha. destruct (Hrun O Hin HstO a Ha) as [Hr | Hf].
    + by apply Hadv.
    + right. by apply Hadv.
Qed.

(** A suspended call other than the one resumed is still suspended. *)
Lemma stays_pending (c : Fields) (task O : Task) (t : nat) (s : State) :
  uniqueTids s → findTask t s = Some task → In O (pending s) →
  stage O ≠ stage task →
  In O (pending (resume c task (dropTask t s))).
Proof.
  intros Hu Hfind HO Hne.
  destruct (findTask_In _ _ _ Hfind) as [Hin Htid].
  destruct (resume_spec c task t s) as (new & rest & _ & Hp & _).
  rewrite Hp. apply in_or_app. left. apply filter_In. split; [done |].
  apply negb_true_iff, Nat.eqb_neq. intros Heq.
  apply Hne. f_equal.
  apply (NoDup_tids_inj (pending s)); [done | done | done | congruence].
Qed.

Lemma beforeFirstPosition_resume (c : Fields) (task : Task) (t : nat)
    (k : Continuation) (s : State) :
  uniqueTids s → findTask t s = Some task → ready s task = true →
  stage task = CloseInitiated k →
  beforeFirstPosition s →
  beforeFirstPosition (resume c task (dropTask t s)).
Proof.
  intros Hu Hfind Hready Hstage (Hst & Hci & Hca & Hreq & Hrun).
  destruct (findTask_In _ _ _ Hfind) as [Hin Htid].
  destruct (resume_spec c task t s) as (new & rest & _ & Hp & Hrest).
  rewrite Hstage in Hrest. destruct Hrest as [w ->].
  assert (∀ O, In O (pending s) → stage O = OpenInitiated →
               In O (pending (resume c task (dropTask t s)))) as Hstay.
  { intros O HO HstO. apply (stays_pending c task O t s); try done. congruence. }
  assert (∀ T, In T (pending (resume c task (dropTask t s))) →
               In T (pending s) ∨
               T = {| tid := tid task; stage := CloseAnimating k; awaited := w |})
    as Hfrom.
  { intros T HT. rewrite Hp in HT. apply in_app_or in HT as [HT | [<- | []]].
    - apply filter_In in HT as [HT _]. by left.
    - by right. }
  unfold ready in Hready. rewrite forallb_forall in Hready.
  unfold beforeFirstPosition. rewrite isOpen_resume.
  split; [| split; [| split; [| split]]].
  - intros T HT. destruct (Hfrom T HT) as [Hold | ->]; [by apply Hst |].
    right. right. by exists k.
  - intros T k' HT HstT. destruct (Hfrom T HT) as [Hold | ->]; [| discriminate].
    destruct (Hci T k' Hold HstT) as (O & HO & HstO & Hlt & Hall).
    exists O. split; [by apply Hstay |]. split; [done |]. split; [done |].
    intros a Ha. destruct (Hall a Ha) as [? | Hf]; [by left | right].
    by apply finishedAt_resume.
  - intros T k' HT HstT. destruct (Hfrom T HT) as [Hold | ->].
    + destruct (Hca T k' Hold HstT) as (O & HO & HstO & Hlt & Hall).
      exists O. split; [by apply Hstay |]. split; [done |]. split; [done |].
      intros a Ha. by apply finishedAt_resume, Hall.
    + destruct (Hci task k Hin Hstage) as (O & HO & HstO & Hlt & Hall).
      exists O. split; [by apply Hstay |]. split; [done |]. split; [done |].
      intros a Ha. apply finishedAt_resume.
      destruct (Hall a Ha) as [Hw | Hf]; [by apply Hready | done].
  - intros Hopen. destruct (Hreq Hopen) as (O & HO & HstO).
    exists O. split; [by apply Hstay | done].
  - intros O HO HstO a Ha. destruct (Hfrom O HO) as [Hold | ->]; [| discriminate].
    destruct (Hrun O Hold HstO a Ha) as [Hr | Hf].
    + left. by apply runningAt_resume.
    + right. by apply finishedAt_resume.
Qed.

(** With no positioning ever set up, the last part of a [close()] is not in
    turn: an [open()] called before it can go on. *)
Lemma lastPart_not_inTurn (s : State) (t : nat) (task : Task) (k : Continuation) :
  beforeFirstPosition s → findTask t s = Some task →
  stage task = CloseAnimating k → lastPartInTurn (Resume t) s = false.
Proof.
  intros (_ & _ & Hca & _) Hfind Hstage.
  destruct (findTask_In _ _ _ Hfind) as [Hin Htid].
  destruct (Hca task k Hin Hstage) as (O & HO & HstO & Hlt & Hall).
  unfold lastPartInTurn. rewrite Hfind, Hstage.
  apply negb_false_iff, existsb_exists. exists O. split; [done |].
  unfold isOpenInitiated. rewrite HstO. simpl.
  apply andb_true_iff. split; [apply Nat.ltb_lt; lia |].
  unfold ready. by apply forallb_forall.
Qed.

(** Every step of such a run keeps [inTurnInv]. The one case that needs the
    condition: with no positioning ever set up, the last part of a
    [close()] is not resumed, since an [open()] called before it can go
    on. *)
Lemma inTurnInv_exec (c : Fields) (l : Label) (s s' : State) :
  inTurnInv s → lastPartInTurn l s = true → exec c l s = Some s' → inTurnInv s'.
Proof.
  intros Hinv Hord Hex.
  apply (exec_preserves_when c inTurnInv
           (fun t x => lastPartInTurn (Resume t) x = true)) with (l := l) (s := s);
    [| | | | | | | | exact Hinv | by intros t -> | exact Hex];
    clear Hinv Hord Hex; clear l s s'.
  - intros m s (Hwf & Hnr & Hb). split; [exact Hwf |]. split.
    + apply (noReject_ext s _ [Enter m]); [done | | by left | done].
      intros m' Hin. no_such_effect.
    + intros Hnone. apply (beforeFirstPosition_ext s); try done. by apply Hb.
  - intros s (Hwf & Hnr & Hb). destruct (open_fields s) as (_ & Hpc & _ & Hp).
    split; [exact (wellFormed_exec c CallOpen s (open s) Hwf eq_refl) |]. split.
    + eapply (noReject_ext s); [apply trace_open | | | done].
      * intros m Hin. destruct (isOpen s); no_such_effect.
      * intros task Hin. rewrite Hp in Hin.
        apply in_app_or in Hin as [Hin | Hin]; [by left | right].
        destruct (isOpen s); [destruct Hin |]. by destruct Hin as [<- | []].
    + rewrite Hpc. intros Hnone. by apply beforeFirstPosition_open, Hb.
  - intros k s (Hwf & Hnr & Hb) Hcase.
    destruct (close_fields k s Hcase) as (_ & Hpc & _ & Hp).
    split; [by apply wellFormed_close |]. split.
    + eapply (noReject_ext s); [apply trace_close | | | done].
      * intros m Hin. destruct (isOpen s); no_such_effect.
      * intros task Hin. rewrite Hp in Hin.
        apply in_app_or in Hin as [Hin | Hin]; [by left | right].
        destruct (isOpen s); [| destruct Hin]. by destruct Hin as [<- | []].
    + rewrite Hpc. intros Hnone.
      apply beforeFirstPosition_close; [apply Hwf | by apply Hb | done].
  - intros s (Hwf & Hnr & Hb). split; [exact Hwf |]. split.
    + apply (noReject_ext s _ destroyEffects); [| | by left | done].
      * unfold destroyEffects. unfold_controller. simpl. by rewrite <- !app_assoc.
      * intros m Hin. unfold destroyEffects in Hin. no_such_effect.
    + intros Hnone. apply (beforeFirstPosition_ext s); try done. by apply Hb.
  - intros e cb s (Hwf & Hnr & Hb). split; [exact Hwf |]. split.
    + apply (noReject_ext s _ [Enter MOn; PickerCall (On e cb)]); [| | by left | done].
      * unfold_controller. simpl. by rewrite <- !app_assoc.
      * intros m Hin. no_such_effect.
    + intros Hnone. apply (beforeFirstPosition_ext s); try done. by apply Hb.
  - intros name s (Hwf & Hnr & Hb). split; [exact Hwf |]. split; [done |].
    intros Hnone.
    apply (beforeFirstPosition_advances s); try done; [apply advances_started |].
    by apply Hb.
  - intros a anim s Ha _ (Hwf & Hnr & Hb). split; [exact Hwf |]. split; [done |].
    intros Hnone.
    apply (beforeFirstPosition_advances s); try done;
      [by apply advances_finished |].
    by apply Hb.
  - intros t task s Hfind Hready Hord (Hwf & Hnr & Hb).
    assert (exec c (Resume t) s = Some (resume c task (dropTask t s))) as Hex
      by (simpl; by rewrite Hfind, Hready).
    split; [exact (wellFormed_exec c (Resume t) s _ Hwf Hex) |].
    destruct (positionCleanup s) as [f |] eqn:Hpc.
    + split.
      * apply noReject_resume; try done. intros k _. congruence.
      * intros Hnone. exfalso.
        apply (cleanup_kept_step c _ _ _ Hex); [congruence | done].
    + pose proof (Hb eq_refl) as Hafp.
      destruct (findTask_In _ _ _ Hfind) as [Hin _].
      destruct (proj1 Hafp task Hin) as [Hst | [[k Hst] | [k Hst]]].
      * split.
        -- apply noReject_resume; try done. intros k. congruence.
        -- intros Hnone. exfalso.
           apply (proj1 (positionCleanup_resume c task t s)); done.
      * split.
        -- apply noReject_resume; try done. intros k'. congruence.
        -- intros _.
           apply (beforeFirstPosition_resume c task t k s); try done. apply Hwf.
      * rewrite (lastPart_not_inTurn s t task k Hafp Hfind Hst) in Hord.
        discriminate Hord.
Qed.

Lemma runInTurn_invariant (c : Fields) (P : State → Prop) :
  (∀ l s s', P s → lastPartInTurn l s = true → exec c l s = Some s' → P s') →
  ∀ ls s s', P s → runInTurn c ls s = Some s' → P s'.
Proof.
  intros Hstep. induction ls as [| l ls IH]; intros s s' HP Hrun; simpl in Hrun.
  - by injection Hrun as <-.
  - destruct (lastPartInTurn l s) eqn:Hord; [| discriminate].
    destruct (exec c l s) as [s1 |] eqn:Hex; [| discriminate].
    eapply IH; [| exact Hrun]. eapply Hstep; eauto.
Qed.

(** X13. In every run in which the last part of a [close()] is never
    resumed while an [open()] called before it is still suspended at its
    first [await] although every animation it waits for has finished, no
    call of the controller rejects, whatever calls and events come, however
    they overlap and in whatever order suspended calls are resumed
    otherwise: by the time the last part of a [close()] makes its unguarded
    call of [positionCleanup], an [open()] has set the positioning up. *)
Theorem no_call_rejects_in_turn (c : Fields) (document : gmap nat nat)
    (ls : list Label) (s : State) :
  runInTurn c ls (initial document) = Some s →
  ∀ m, ¬ In (Settled m Rejected) (trace s).
Proof.
  intros Hrun.
  assert (inTurnInv s) as (_ & [Hnr _] & _); [| exact Hnr].
  eapply (runInTurn_invariant c inTurnInv); [| | exact Hrun].
  - intros l x x'. apply inTurnInv_exec.
  - split; [| split; [split |]].
    + split; [intros task [] |]. split; [apply NoDup_nil_2 |]. discriminate.
    + intros m [].
    + intros task [].
    + intros _. split; [intros task [] |]. split; [intros T k [] |].
      split; [intros T k [] |]. split; [discriminate | intros O []].
Qed.

(** Toggled rapidly, with calls overlapping: nothing rejects. *)
Lemma no_call_rejects_in_turn_witness :
  ¬ In (Settled MClose Rejected)
       (trace (after demo rapidToggleToEnd (initial demoDocument))).
Proof.
  apply (no_call_rejects_in_turn demo demoDocument rapidToggleToEnd).
  vm_compute. reflexivity.
Defined.

(** The condition matters: were the [close()] of [open(); close()] carried
    to its end before the [open()] is resumed, its last part would find no
    cleanup to call. And it asks less than first come, first served: two
    animations may finish before a call that waited for the first is
    resumed. *)
Example close_rejects_out_of_turn :
  (∃ s, run demo closeOvertakes (initial demoDocument) = Some s ∧
        last (trace s) = Some (Settled MClose Rejected)) ∧
  runInTurn demo closeOvertakes (initial demoDocument) = None ∧
  runInOrder demo sameFrame (initial demoDocument) = None ∧
  is_Some (runInTurn demo sameFrame (initial demoDocument)).
Proof.
  split; [| split; [| split]].
  - eexists. split; vm_compute; reflexivity.
  - vm_compute. reflexivity.
  - vm_compute. reflexivity.
  - vm_compute. eexists. reflexivity.
Qed.

(** ** Calls made one at a time keep [isOpen] in step with the document *)


(** With nothing suspended, [oneCallInv] says [inStep]. *)
Lemma settled_inStep (c : Fields) (s : State) :
  oneCallInv c s → pending s = [] → inStep c s.
Proof.
  unfold inStep.
  intros [[_ Hin] | [[s0 Hprog] | (k & s0 & pre & Hprog)]] Hp; [done | |].
  - destruct Hprog as [s task Hp1 | s task anim Hp1 | s anim Hp1 Hio Hdom];
      try (rewrite Hp in Hp1; discriminate).
    by rewrite Hio.
  - destruct Hprog as [s task Hp1 | s task anim Hp1
                      | s anim Hk Hp1 Hio Hdom
                      | s task anim Hk Hp1 | s anim Hk Hp1 Hio Hdom];
      try (rewrite Hp in Hp1; discriminate); by rewrite Hio.
Qed.

Lemma at_most_one_pending (c : Fields) (s : State) :
  oneCallInv c s → length (pending s) ≤ 1.
Proof.
  intros [[-> _] | [[s0 Hprog] | (k & s0 & pre & Hprog)]]; [simpl; lia | |].
  - destruct Hprog as [s task Hp1 | s task anim Hp1 | s anim Hp1];
      rewrite Hp1; simpl; lia.
  - destruct Hprog as [s task Hp1 | s task anim Hp1 | s anim Hk Hp1
                      | s task anim Hk Hp1 | s anim Hk Hp1];
      rewrite Hp1; simpl; lia.
Qed.

Lemma open_inStep (c : Fields) (s : State) :
  pending s = [] → inStep c s → oneCallInv c (open s).
Proof.
  intros Hp Hin. destruct (isOpen s) eqn:Hio.
  - left. destruct (open_fields s) as (Hio' & _ & _ & Hp').
    rewrite Hio, app_nil_r in Hp'. unfold inStep in *.
    rewrite Hio', (proj1 (dom_open_close Detached s)), Hp'. by rewrite Hio in Hin.
  - right. left. exists s. by apply open_starts.
Qed.

Lemma close_inStep (c : Fields) (k : Continuation) (s0 s : State)
    (pre : list Effect) :
  pending s = [] → inStep c s → isOpen s = true ∨ k = Detached →
  trace s = trace s0 ++ pre → positionCleanup s = positionCleanup s0 →
  externalEvents s = externalEvents s0 →
  oneCallInv c (close k s).
Proof.
  intros Hp Hin Hcase Htr Hpc Hee. destruct (isOpen s) eqn:Hio.
  - right. right. exists k, s0, pre. by apply close_starts.
  - destruct Hcase as [? | ->]; [done |].
    left. destruct (close_fields Detached s (or_intror eq_refl)) as (Hio' & _ & _ & Hp').
    rewrite Hio, app_nil_r in Hp'. unfold inStep in *.
    rewrite Hio', (proj2 (dom_open_close Detached s)), Hp'. by rewrite Hio in Hin.
Qed.

(** A step of the environment moves the one call under way on; a call or
    an event comes with nothing suspended, and starts at most one call. *)
Lemma oneCallInv_exec (c : Fields) (l : Label) (s s' : State) :
  oneCallInv c s → oneAtATime l s = true → exec c l s = Some s' →
  oneCallInv c s'.
Proof.
  intros Hinv Hone Hex. unfold oneAtATime in Hone.
  destruct (quiet l) eqn:Hq.
  - destruct Hinv as [[Hp Hin] | [[s0 Hprog] | (k & s0 & pre & Hprog)]].
    + apply (quiet_cases c l s s' Hq) in Hex as [[v ->] | (t & task & Hfind & _)].
      * by left.
      * destruct (findTask_none t s task Hp Hfind).
    + right. left. exists s0. by apply (OpenProgress_exec c s0 l s).
    + right. right. exists k, s0, pre. by apply (CloseProgress_exec c k s0 pre l s).
  - simpl in Hone. destruct (pending s) as [| x p] eqn:Hp; [| discriminate].
    pose proof (settled_inStep c s Hinv Hp) as Hin.
    assert (∀ k, k = Detached → oneCallInv c (close k s)) as Hclose.
    { intros k ->. apply (close_inStep c Detached s s []); try done.
      - by right.
      - by rewrite app_nil_r. }
    destruct l; try discriminate Hq; simpl in Hex; injection Hex as <-.
    + by apply open_inStep.
    + by apply Hclose.
    + rewrite toggle_eq. destruct (isOpen s) eqn:Hio.
      * apply (close_inStep c Detached (effect (Enter MToggle) s) _ []); try done.
        -- by right.
        -- by rewrite app_nil_r.
      * by apply open_inStep.
    + unfold destroy. simpl. destruct (isOpen s) eqn:Hio.
      * apply (close_inStep c ThenDestroy s _ [Enter MDestroy]); try done. by left.
      * left. unfold inStep in *. unfold_controller. simpl. rewrite Hio in *. done.
    + left. split; [done |]. done.
    + destruct (documentClick s); [| by left].
      unfold onDocumentClick. destruct (_ && _); [by apply Hclose | by left].
    + unfold handleKeydown. destruct (String.eqb _ _); [by apply Hclose | by left].
    + unfold onEmojiSelect. destruct (autoHide c); [by apply Hclose | by left].
Qed.

Lemma runOneAtATime_run (c : Fields) (ls : list Label) (s s' : State) :
  runOneAtATime c ls s = Some s' → run c ls s = Some s'.
Proof.
  revert s. induction ls as [| l ls IH]; intros s; simpl; [done |].
  destruct (oneAtATime l s); [| discriminate].
  destruct (exec c l s); [apply IH | done].
Qed.

(** X14. If the page makes its calls, and events reach the listeners, only
    when no earlier call is still suspended (each call is awaited before the
    next), then at most one call is ever suspended, and whenever none is,
    [isOpen] and the document agree: an open picker has its popup element as
    a child of the root element and a positioning set up, a closed one has
    the popup element out of the document and no positioning in effect.
    The popup element is new, it is not in the document to begin with. *)
Theorem one_call_at_a_time_stays_in_step (c : Fields) (document : gmap nat nat)
    (ls : list Label) (s : State) :
  document !! popupEl c = None →
  runOneAtATime c ls (initial document) = Some s →
  length (pending s) ≤ 1 ∧
  (pending s = [] →
   (isOpen s = true →
    dom s !! popupEl c = Some (rootElement c) ∧ positionCleanup s ≠ None) ∧
   (isOpen s = false → dom s !! popupEl c = None ∧ positioned s = ∅)).
Proof.
  intros Hfresh Hrun.
  assert (oneCallInv c s) as Hinv.
  { assert (oneCallInv c (initial document)) as H0 by (left; by split).
    clear Hfresh. revert H0 Hrun. generalize (initial document).
    induction ls as [| l ls IH]; intros x Hx Hrun; simpl in Hrun.
    - by injection Hrun as <-.
    - destruct (oneAtATime l x) eqn:Hone; [| discriminate].
      destruct (exec c l x) as [x' |] eqn:Hex; [| discriminate].
      apply (IH x'); [| done]. by apply (oneCallInv_exec c l x). }
  assert (reachable c s) as Hreach.
  { exists document, ls. by apply runOneAtATime_run. }
  split; [by apply (at_most_one_pending c) |].
  intros Hp. pose proof (settled_inStep c s Hinv Hp) as Hin. unfold inStep in Hin.
  split; intros Hio; rewrite Hio in Hin.
  - split; [done |]. by apply (settled_open_positioned c).
  - split; [done |]. by apply (reachable_positionedInv c s Hreach).
Qed.

(** Opened (and later closed) with every call awaited. *)
Lemma one_call_at_a_time_stays_in_step_witness :
  (dom demoOpened !! popupEl demo = Some (rootElement demo) ∧
   positionCleanup demoOpened ≠ None) ∧
  (dom demoClosed !! popupEl demo = None ∧ positioned demoClosed = ∅).
Proof.
  split.
  - refine (proj1 (proj2 (one_call_at_a_time_stays_in_step demo demoDocument
                            [CallOpen; Resume 0; AnimationFinished 0; Resume 0]
                            demoOpened _ _) _) _); vm_compute; reflexivity.
  - refine (proj2 (proj2 (one_call_at_a_time_stays_in_step demo demoDocument
                            ([CallOpen; Resume 0; AnimationFinished 0; Resume 0]
                               ++ closeThrough)
                            demoClosed _ _) _) _); vm_compute; reflexivity.
Defined.

(** ** Callbacks registered with [on] *)

(** X15. [on(event, callback)] appends the callback to the controller's
    external listeners and hands it to the picker under the same event, and
    does nothing else. The only thing that ever removes listeners is
    [destroy()] getting to its end, which removes all of them; no other
    call, listener or resumed part changes them (a single callback cannot be
    taken back). *)
Theorem listeners_kept_until_destroy (c : Fields) (l : Label) (s s' : State) :
  exec c l s = Some s' →
  (∃ e cb, l = CallOn e cb ∧
           externalEvents s' = externalEvents s ++ [(e, cb)] ∧
           effectsSince s s' = [Enter MOn; PickerCall (On e cb)]) ∨
  (externalEvents s' = [] ∧ In ExternalEventsCleared (effectsSince s s') ∧
   In (Settled MDestroy Resolved) (effectsSince s s')) ∨
  (externalEvents s' = externalEvents s ∧
   ¬ In ExternalEventsCleared (effectsSince s s')).
Proof.
  intros Hex. destruct l; simpl in Hex.
  5: { injection Hex as <-. left. exists event, callback.
       split; [done |]. split; [done |]. read_effects. }
  1-8: injection Hex as <-; read_effects.
  all: try (right; right; split; [reflexivity | intros H; no_such_effect]).
  all: try (right; left; split; [reflexivity | split; simpl; tauto]).
  - destruct (animations s !! a) as [anim |]; [| discriminate].
    destruct (isRunning anim); [| discriminate].
    injection Hex as <-. read_effects.
    all: try (right; right; split; [reflexivity | intros H; no_such_effect]).
  - destruct (findTask t s) as [task |] eqn:Hfind; [| discriminate].
    destruct (ready s task) eqn:Hready; [| discriminate].
    injection Hex as <-. clear. read_effects.
    all: try (right; right; split; [reflexivity | intros H; no_such_effect]).
    all: try (right; left; split; [reflexivity | split; simpl; tauto]).
Qed.

(** A callback registered while the picker is open is still there after
    [close()]; [destroy()] then removes it. *)
Lemma listeners_kept_until_destroy_witness :
  let registered := on "emoji:select" 4 demoOpened in
  externalEvents registered = [("emoji:select", 4)] ∧
  externalEvents (after demo closeThrough registered) = [("emoji:select", 4)] ∧
  externalEvents (destroy demoClosed) = [].
Proof.
  intros registered.
  destruct (listeners_kept_until_destroy demo (CallOn "emoji:select" 4)
              demoOpened registered eq_refl)
    as [(e & cb & Hl & Hee & _) | [(_ & Habs & _) | (_ & _)]].
  - injection Hl as <- <-. split; [exact Hee |].
    split; vm_compute; reflexivity.
  - vm_compute in Habs. exfalso. intuition discriminate.
  - split; [| split]; vm_compute; reflexivity.
Defined.

End PopupFacts.
